(** * The Streams channel demo driver ([src/c/main.c]) against its specification

    [main.c] is the demo driver of the channel protocol: it fills a seed
    buffer from [rand()], creates an author, announces a channel, creates a
    subscriber, lets it unwrap the announcement and subscribe, and lets the
    author unwrap the subscription.  Everything behind [include/streams.h]
    is outside [main.c]; it is modelled here from the specification.

    Layout of the development:
    - [CData]    C integers, character arrays, C strings;
    - [Streams]  the protocol data model and state machines (from the spec);
    - [Api]      the C binding of the protocol core (from the spec);
    - [Driver]   the calls [main] can make, programs as call trees, [main];
    - [Run]      the environment, the handlers of the calls, executions;
    - [Trace]    what the properties read off an execution;
    - the properties of [main]. *)

From Stdlib Require Import ZArith Ascii String Lia.
From stdpp Require Import base decidable option numbers list strings.

Local Open Scope string_scope.
Local Open Scope list_scope.
Local Open Scope Z_scope.

(* ===================================================================== *)
(** ** C data *)
(* ===================================================================== *)

Module CData.

(** [(int) z]: reduction to 32 bits, two's complement. *)
Definition to_int (z : Z) : Z := Z.modulo (z + 2 ^ 31) (2 ^ 32) - 2 ^ 31.

(** [(unsigned) z], the argument type of [srand]. *)
Definition to_uint (z : Z) : Z := Z.modulo z (2 ^ 32).

(** [size_t] arithmetic is modulo [2^64]. *)
Definition to_size_t (z : Z) : Z := Z.modulo z (2 ^ 64).

Definition INT_MAX : Z := 2 ^ 31 - 1.

Definition NUL : ascii := "000"%char.

(** A character array of the frame of [main]: its declared number of
    elements and the bytes at its address.  [bytes] goes on past the
    declared elements with whatever follows the array in the frame, so
    that an access with an index [>= cap] has a defined place to land. *)
Record carray := { cap : nat; bytes : list ascii }.

(** [a[i]] as an rvalue. *)
Definition load_byte (bs : list ascii) (i : Z) : ascii :=
  if 0 <=? i then default NUL (bs !! Z.to_nat i) else NUL.

(** [a[i] = c]. *)
Definition store_byte (i : Z) (c : ascii) (bs : list ascii) : list ascii :=
  if 0 <=? i then <[Z.to_nat i := c]> bs else bs.

(** The C string that starts at the first byte: everything before the
    first NUL, or all the bytes when the list holds none. *)
Fixpoint c_string (bs : list ascii) : string :=
  match bs with
  | [] => ""
  | b :: rest => if decide (b = NUL) then "" else String b (c_string rest)
  end.

(** [char a[cap] = init]: the initialiser, zero filled up to [cap]. *)
Definition initialised (cap : nat) (init : string) : list ascii :=
  take cap (list_ascii_of_string init ++ replicate cap NUL).

End CData.
Import CData.

(* ===================================================================== *)
(** ** The protocol core, from the specification *)
(* ===================================================================== *)

Module Streams.

(** Modelled from the spec: the error taxonomy of section 7.  The whole
    library behind [include/streams.h] is absent from the sources; every
    definition of this module follows the specification's words. *)
Inductive ProtocolError :=
| InvalidSeed | AddressCollision | MalformedAddress | CorruptEnvelope
| SignatureInvalid | DecryptionFailed | UnsupportedPayloadKind | OutOfOrder
| UnknownChannel | Unauthorized | AlreadyAnnounced | AnnouncementUnknown
| BranchNotKeyed | NotAnAnnouncement.

(** [NullPointer] is not in the taxonomy: it is what a call answers when
    the driver hands it the null result of an earlier failed call. *)
Inductive error :=
| Protocol (e : ProtocolError)
| TransportError
| NotFound
| NullPointer.

Inductive result (A : Type) :=
| Ok (a : A)
| Err (e : error).
Arguments Ok {A} a.
Arguments Err {A} e.

Definition rbind {A B} (r : result A) (f : A -> result B) : result B :=
  match r with Ok a => f a | Err e => Err e end.

#[global] Instance ProtocolError_eq_dec : EqDecision ProtocolError.
Proof. solve_decision. Defined.
#[global] Instance error_eq_dec : EqDecision error.
Proof. solve_decision. Defined.

(** *** Abstract capabilities (section 1): symbolic keys

    Modelled from the spec: [DeriveKey], [Sign], [Verify], [Encrypt] and
    [Decrypt] are abstract capabilities.  Keys are symbolic terms over the
    material they were derived from; a signature names its signer and what
    was signed; a ciphertext names its key. *)
Record material := { m_seed : string; m_encoding : string }.

Inductive secret_key := SK (m : material).
Inductive public_key := PK (m : material).
Record keypair := { secret : secret_key; public : public_key }.

(** [slot = 0] is an identity's own stream-cipher key; [slot = S n] is the
    branch key distributed by the keyload at sequence [n]. *)
Record cipher_key := { ck_owner : material; ck_slot : nat }.

Inductive ciphertext := Enc (k : cipher_key) (plain : string).

#[global] Instance material_eq_dec : EqDecision material.
Proof. solve_decision. Defined.
#[global] Instance secret_key_eq_dec : EqDecision secret_key.
Proof. solve_decision. Defined.
#[global] Instance public_key_eq_dec : EqDecision public_key.
Proof. solve_decision. Defined.
#[global] Instance cipher_key_eq_dec : EqDecision cipher_key.
Proof. solve_decision. Defined.
#[global] Instance ciphertext_eq_dec : EqDecision ciphertext.
Proof. solve_decision. Defined.

Definition DeriveKey (seed encoding : string) : material :=
  {| m_seed := seed; m_encoding := encoding |}.

Definition Encrypt (k : cipher_key) (plain : string) : ciphertext := Enc k plain.

Definition Decrypt (k : cipher_key) (c : ciphertext) : result string :=
  match c with
  | Enc k' plain =>
      if decide (k = k') then Ok plain else Err (Protocol DecryptionFailed)
  end.

(** *** Data model (section 3) *)

Record Identity := {
  seed : string;
  encoding : string;
  signing_keypair : keypair;
  encryption_key : cipher_key;
}.

Record Address := {
  channel_id : material;
  branch_id : nat;
  sequence : nat;
}.

#[global] Instance Address_eq_dec : EqDecision Address.
Proof. solve_decision. Defined.

Inductive payload_kind :=
| Announcement | Subscribe | Keyload | TaggedPacket | SignedPacket.

(** What a message carries, by payload kind. *)
Inductive payload :=
| AnnouncementBody (author_pk : public_key)
| SubscribeBody (subscriber_pk : public_key) (announcement : Address)
| KeyloadBody (authorized : list public_key) (psks : list string)
              (branch_key : cipher_key)
| TaggedBody (public_segment : string) (private_segment : ciphertext)
| SignedBody (public_segment private_segment : string).

#[global] Instance payload_eq_dec : EqDecision payload.
Proof. solve_decision. Defined.

Definition content : Type := Address * option Address * payload.

Inductive signature_t := Sig (signer : material) (signed : content).

Definition Sign (sk : secret_key) (c : content) : signature_t :=
  match sk with SK m => Sig m c end.

Definition Verify (pk : public_key) (c : content) (s : signature_t) : bool :=
  match pk, s with
  | PK m, Sig m' c' => bool_decide (m = m') && bool_decide (c = c')
  end.

Record Message := {
  address : Address;
  previous_link : option Address;
  author_or_subscriber_ref : public_key;
  signature : option signature_t;
  body : payload;
}.

Definition kind_of (m : Message) : payload_kind :=
  match body m with
  | AnnouncementBody _ => Announcement
  | SubscribeBody _ _ => Subscribe
  | KeyloadBody _ _ _ => Keyload
  | TaggedBody _ _ => TaggedPacket
  | SignedBody _ _ => SignedPacket
  end.

Definition signed_part (m : Message) : content :=
  (address m, previous_link m, body m).

(** A message carries a valid signature of [pk]. *)
Definition signed_by (pk : public_key) (m : Message) : bool :=
  match signature m with
  | Some s => Verify pk (signed_part m) s
  | None => false
  end.

Definition seal (kp : keypair) (a : Address) (prev : option Address)
    (b : payload) : Message :=
  {| address := a; previous_link := prev;
     author_or_subscriber_ref := public kp;
     signature := Some (Sign (secret kp) (a, prev, b));
     body := b |}.

Record Branch := {
  br_id : nat;
  psk_set : list string;
  subscriber_keys : list public_key;
  sequence_counter : nat;
}.

Record Channel := {
  ch_id : material;
  announcement_address : Address;
  author_public_key : public_key;
  branches : list Branch;
}.

(** *** 4.1 Identity Manager

    Modelled from the spec: [derive] is a function of the seed and the
    encoding tag; it fails with [InvalidSeed] on an empty seed or on a
    seed with a character outside the accepted set.  The spec does not
    list the accepted characters, so the set is a parameter. *)
Definition seed_ok (accepted : ascii -> bool) (s : string) : bool :=
  negb (bool_decide (s = "")) && forallb accepted (list_ascii_of_string s).

Definition derive (accepted : ascii -> bool) (seed encoding : string)
    : result Identity :=
  if seed_ok accepted seed then
    let m := DeriveKey seed encoding in
    Ok {| seed := seed; encoding := encoding;
          signing_keypair := {| secret := SK m; public := PK m |};
          encryption_key := {| ck_owner := m; ck_slot := 0 |} |}
  else Err (Protocol InvalidSeed).

Definition public_of (i : Identity) : public_key := public (signing_keypair i).

Definition material_of (pk : public_key) : material :=
  match pk with PK m => m end.

(** *** 4.2 Address Codec *)

Definition root_branch : nat := 0%nat.

(** The announcement root: a function of the author's public key only. *)
Definition channel_address (author : Identity) : Address :=
  {| channel_id := material_of (public_of author);
     branch_id := root_branch; sequence := 0 |}.

Definition next_address (ch : material) (branch cursor : nat) : Address :=
  {| channel_id := ch; branch_id := branch; sequence := cursor |}.

(** *** 4.4 Topology Manager: what one party knows of the message tree *)

Record Topology := {
  channel : option Channel;
  known : list Address;
  cursor : list (nat * nat);   (* branch_id -> next expected sequence *)
}.

Definition no_topology : Topology :=
  {| channel := None; known := []; cursor := [] |}.

Fixpoint cursor_get (c : list (nat * nat)) (b : nat) : nat :=
  match c with
  | [] => 0%nat
  | (b', n) :: rest => if decide (b = b') then n else cursor_get rest b
  end.

Fixpoint cursor_set (c : list (nat * nat)) (b n : nat) : list (nat * nat) :=
  match c with
  | [] => [(b, n)]
  | (b', n') :: rest =>
      if decide (b = b') then (b, n) :: rest else (b', n') :: cursor_set rest b n
  end.

(** The sequence counter of branch [b] moves past [n]. *)
Definition bump (b n : nat) (br : Branch) : Branch :=
  if decide (br_id br = b) then
    {| br_id := br_id br; psk_set := psk_set br;
       subscriber_keys := subscriber_keys br;
       sequence_counter := Nat.max (sequence_counter br) (S n) |}
  else br.

Definition bumped (b n : nat) (ch : Channel) : Channel :=
  {| ch_id := ch_id ch; announcement_address := announcement_address ch;
     author_public_key := author_public_key ch;
     branches := bump b n <$> branches ch |}.

(** A sequence number is consumed when it is allocated, whether or not the
    publish that follows succeeds. *)
Definition consume (t : Topology) (b : nat) : Topology :=
  {| channel := bumped b (cursor_get (cursor t) b) <$> channel t;
     known := known t;
     cursor := cursor_set (cursor t) b (S (cursor_get (cursor t) b)) |}.

(** A message at address [a] is recorded. *)
Definition learn (t : Topology) (a : Address) : Topology :=
  {| channel := bumped (branch_id a) (sequence a) <$> channel t;
     known := a :: known t;
     cursor := cursor_set (cursor t) (branch_id a)
                 (Nat.max (cursor_get (cursor t) (branch_id a)) (S (sequence a))) |}.

Definition record (t : Topology) (m : Message) : result Topology :=
  match channel t with
  | None => Err (Protocol UnknownChannel)
  | Some ch =>
      if negb (bool_decide (channel_id (address m) = ch_id ch)) then
        Err (Protocol UnknownChannel)
      else
        match previous_link m with
        | Some l =>
            if bool_decide (l ∈ known t) then Ok (learn t (address m))
            else Err (Protocol OutOfOrder)
        | None => Ok (learn t (address m))
        end
  end.

(** *** The ledger collaborator (section 6)

    The ledger holds messages as they are: the byte layout of the Envelope
    Codec (section 4.3) and the parsing of addresses are left out, since
    [decode (encode m) = m] is all the state machines use of them. *)

Definition on_ledger (l : list Message) (a : Address) : option Message :=
  List.find (fun m => bool_decide (address m = a)) l.

Definition post (up : bool) (l : list Message) (m : Message)
    : result (list Message) :=
  if negb up then Err TransportError
  else if bool_decide (is_Some (on_ledger l (address m))) then
    Err (Protocol AddressCollision)
  else Ok (l ++ [m]).

(** How the ledger answers one fetch. *)
Inductive net := Served | NotYetAvailable | Down.

Definition fetch (answer : net) (l : list Message) (a : Address)
    : result Message :=
  match answer with
  | Down => Err TransportError
  | NotYetAvailable => Err NotFound
  | Served =>
      match on_ledger l a with
      | Some m => Ok m
      | None => Err NotFound
      end
  end.

(** *** 4.5 Access Control (Keyload) Manager *)

Definition rekey (authorized : list public_key) (psks : list string)
    (b : nat) (br : Branch) : Branch :=
  if decide (br_id br = b) then
    {| br_id := br_id br; psk_set := psks; subscriber_keys := authorized;
       sequence_counter := sequence_counter br |}
  else br.

(** A keyload carries the complete authorised set: the receiver replaces
    its key set. *)
Definition with_keys (ch : Channel) (b : nat) (authorized : list public_key)
    (psks : list string) : Channel :=
  {| ch_id := ch_id ch; announcement_address := announcement_address ch;
     author_public_key := author_public_key ch;
     branches := rekey authorized psks b <$> branches ch |}.

Definition issue_keyload (caller : Identity) (ch : Channel) (a link : Address)
    (authorized : list public_key) (psks : list string) : result Message :=
  if bool_decide (public_of caller = author_public_key ch) then
    Ok (seal (signing_keypair caller) a (Some link)
          (KeyloadBody authorized psks
             {| ck_owner := ch_id ch; ck_slot := S (sequence a) |}))
  else Err (Protocol Unauthorized).

Definition apply_keyload (ch : Channel) (m : Message)
    : result (Channel * list public_key * cipher_key) :=
  if negb (signed_by (author_public_key ch) m) then
    Err (Protocol SignatureInvalid)
  else
    match body m with
    | KeyloadBody authorized psks k =>
        Ok (with_keys ch (branch_id (address m)) authorized psks, authorized, k)
    | _ => Err (Protocol CorruptEnvelope)
    end.

(** *** 4.6 Author State Machine *)

Module AuthorState.
Inductive t := Created | Announced | Active.
#[global] Instance eq_dec : EqDecision t.
Proof. solve_decision. Defined.
End AuthorState.

Record Author := {
  a_identity : Identity;
  a_state : AuthorState.t;
  a_view : Topology;
  a_pending : list public_key;
  a_branch_key : option cipher_key;
}.

Definition new_author (i : Identity) : Author :=
  {| a_identity := i; a_state := AuthorState.Created; a_view := no_topology;
     a_pending := []; a_branch_key := None |}.

Definition root : Branch :=
  {| br_id := root_branch; psk_set := []; subscriber_keys := [];
     sequence_counter := 0 |}.

Definition announced_channel (a : Address) (pk : public_key) : Channel :=
  {| ch_id := channel_id a; announcement_address := a;
     author_public_key := pk; branches := [root] |}.

Definition announce (up : bool) (l : list Message) (a : Author)
    : result Address * Author * list Message :=
  if negb (bool_decide (a_state a = AuthorState.Created)) then
    (Err (Protocol AlreadyAnnounced), a, l)
  else
    let addr := channel_address (a_identity a) in
    let pk := public_of (a_identity a) in
    let m := seal (signing_keypair (a_identity a)) addr None (AnnouncementBody pk) in
    match post up l m with
    | Err e => (Err e, a, l)
    | Ok l' =>
        (Ok addr,
         {| a_identity := a_identity a; a_state := AuthorState.Announced;
            a_view := learn {| channel := Some (announced_channel addr pk);
                               known := []; cursor := [] |} addr;
            a_pending := a_pending a; a_branch_key := a_branch_key a |},
         l')
    end.

Definition accept_subscription (a : Author) (m : Message)
    : result unit * Author :=
  match body m with
  | SubscribeBody spk ann =>
      if negb (signed_by spk m) then (Err (Protocol SignatureInvalid), a)
      else if negb (bool_decide (ann ∈ known (a_view a))) then
        (Err (Protocol UnknownChannel), a)
      else
        match record (a_view a) m with
        | Err e => (Err e, a)
        | Ok v =>
            (Ok tt,
             {| a_identity := a_identity a; a_state := a_state a; a_view := v;
                a_pending := spk :: a_pending a;
                a_branch_key := a_branch_key a |})
        end
  | _ => (Err (Protocol CorruptEnvelope), a)
  end.

Definition author_spent (a : Author) (b : nat) : Author :=
  {| a_identity := a_identity a; a_state := a_state a;
     a_view := consume (a_view a) b; a_pending := a_pending a;
     a_branch_key := a_branch_key a |}.

(** [share_keyload] for every pending subscriber, linked to [link]. *)
Definition share_keyload (up : bool) (l : list Message) (a : Author)
    (link : Address) : result Address * Author * list Message :=
  match channel (a_view a) with
  | None => (Err (Protocol UnknownChannel), a, l)
  | Some ch =>
      if negb (bool_decide (link ∈ known (a_view a))) then
        (Err (Protocol OutOfOrder), a, l)
      else
        let b := branch_id link in
        let addr := next_address (ch_id ch) b (cursor_get (cursor (a_view a)) b) in
        match issue_keyload (a_identity a) ch addr link (a_pending a) [] with
        | Err e => (Err e, a, l)
        | Ok m =>
            match post up l m with
            | Err e => (Err e, author_spent a b, l)
            | Ok l' =>
                (Ok addr,
                 {| a_identity := a_identity a; a_state := AuthorState.Active;
                    a_view :=
                      learn {| channel := Some (with_keys ch b (a_pending a) []);
                               known := known (a_view a);
                               cursor := cursor (a_view a) |} addr;
                    a_pending := a_pending a;
                    a_branch_key :=
                      Some {| ck_owner := ch_id ch; ck_slot := S (sequence addr) |} |},
                 l')
            end
        end
  end.

Definition publish_tagged (up : bool) (l : list Message) (a : Author)
    (link : Address) (public_payload private_payload : string)
    : result Address * Author * list Message :=
  match channel (a_view a), a_branch_key a with
  | Some ch, Some k =>
      if negb (bool_decide (a_state a = AuthorState.Active)) then
        (Err (Protocol BranchNotKeyed), a, l)
      else if negb (bool_decide (link ∈ known (a_view a))) then
        (Err (Protocol OutOfOrder), a, l)
      else
        let b := branch_id link in
        let addr := next_address (ch_id ch) b (cursor_get (cursor (a_view a)) b) in
        let m := seal (signing_keypair (a_identity a)) addr (Some link)
                   (TaggedBody public_payload (Encrypt k private_payload)) in
        match post up l m with
        | Err e => (Err e, author_spent a b, l)
        | Ok l' =>
            (Ok addr,
             {| a_identity := a_identity a; a_state := a_state a;
                a_view := learn (a_view a) addr; a_pending := a_pending a;
                a_branch_key := a_branch_key a |},
             l')
        end
  | _, _ => (Err (Protocol BranchNotKeyed), a, l)
  end.

(** *** 4.7 Subscriber State Machine *)

Module SubscriberState.
Inductive t := Created | AnnouncementKnown | Subscribed | Active.
#[global] Instance eq_dec : EqDecision t.
Proof. solve_decision. Defined.
End SubscriberState.

Record Subscriber := {
  s_identity : Identity;
  s_state : SubscriberState.t;
  s_view : Topology;
  s_branch_key : option cipher_key;
}.

Definition new_subscriber (i : Identity) : Subscriber :=
  {| s_identity := i; s_state := SubscriberState.Created;
     s_view := no_topology; s_branch_key := None |}.

Definition unwrap_announcement (s : Subscriber) (m : Message)
    : result unit * Subscriber :=
  match body m with
  | AnnouncementBody apk =>
      if negb (signed_by apk m) then (Err (Protocol SignatureInvalid), s)
      else
        (Ok tt,
         {| s_identity := s_identity s;
            s_state :=
              match s_state s with
              | SubscriberState.Created => SubscriberState.AnnouncementKnown
              | st => st
              end;
            s_view := learn {| channel := Some (announced_channel (address m) apk);
                               known := []; cursor := [] |} (address m);
            s_branch_key := s_branch_key s |})
  | _ => (Err (Protocol NotAnAnnouncement), s)
  end.

Definition subscriber_spent (s : Subscriber) (b : nat) : Subscriber :=
  {| s_identity := s_identity s; s_state := s_state s;
     s_view := consume (s_view s) b; s_branch_key := s_branch_key s |}.

Definition subscribe (up : bool) (l : list Message) (s : Subscriber)
    (announcement : Address) : result Address * Subscriber * list Message :=
  match s_state s, channel (s_view s) with
  | SubscriberState.Created, _ | _, None =>
      (Err (Protocol AnnouncementUnknown), s, l)
  | _, Some ch =>
      if negb (bool_decide (announcement = announcement_address ch)) then
        (Err (Protocol UnknownChannel), s, l)
      else
        let b := branch_id announcement in
        let addr := next_address (ch_id ch) b (cursor_get (cursor (s_view s)) b) in
        let m := seal (signing_keypair (s_identity s)) addr (Some announcement)
                   (SubscribeBody (public_of (s_identity s)) announcement) in
        match post up l m with
        | Err e => (Err e, subscriber_spent s b, l)
        | Ok l' =>
            (Ok addr,
             {| s_identity := s_identity s;
                s_state :=
                  match s_state s with
                  | SubscriberState.AnnouncementKnown => SubscriberState.Subscribed
                  | st => st
                  end;
                s_view := learn (s_view s) addr;
                s_branch_key := s_branch_key s |},
             l')
        end
  end.

Definition unwrap_keyload (s : Subscriber) (m : Message)
    : result unit * Subscriber :=
  match channel (s_view s) with
  | None => (Err (Protocol UnknownChannel), s)
  | Some ch =>
      match apply_keyload ch m with
      | Err e => (Err e, s)
      | Ok (ch', authorized, k) =>
          match record (s_view s) m with
          | Err e => (Err e, s)
          | Ok v =>
              let mine := bool_decide (public_of (s_identity s) ∈ authorized) in
              (Ok tt,
               {| s_identity := s_identity s;
                  s_state :=
                    if mine then SubscriberState.Active
                    else match s_state s with
                         | SubscriberState.Active => SubscriberState.Subscribed
                         | st => st
                         end;
                  s_view := {| channel := Some ch'; known := known v;
                               cursor := cursor v |};
                  s_branch_key := if mine then Some k else None |})
          end
      end
  end.

Definition unwrap_tagged (s : Subscriber) (m : Message)
    : result (string * string) * Subscriber :=
  match s_state s, s_branch_key s, channel (s_view s) with
  | SubscriberState.Active, Some k, Some ch =>
      match body m with
      | TaggedBody pub ct =>
          if negb (signed_by (author_or_subscriber_ref m) m) then
            (Err (Protocol SignatureInvalid), s)
          else
            match Decrypt k ct, record (s_view s) m with
            | Err e, _ | _, Err e => (Err e, s)
            | Ok plain, Ok v =>
                (Ok (pub, plain),
                 {| s_identity := s_identity s; s_state := s_state s;
                    s_view := v; s_branch_key := s_branch_key s |})
            end
      | _ => (Err (Protocol CorruptEnvelope), s)
      end
  | _, _, _ => (Err (Protocol BranchNotKeyed), s)
  end.

End Streams.

(* ===================================================================== *)
(** ** The C binding of the protocol core *)
(* ===================================================================== *)

(** A C pointer to a library object: null, or the object it designates. *)
Definition ptr (T : Type) : Type := option T.

Module Api.
Import Streams.

(** Modelled from the spec: the functions declared in [include/streams.h]
    are absent from the sources.  Each is the operation of sections 4.1 to
    4.7 it is named after, applied to objects that the library owns:
    authors and subscribers live in tables and are designated by their
    index, addresses and messages are immutable values.  A call that fails
    answers a null pointer (when it answers a pointer at all) and leaves
    its error in [status]; the protocol state it was applied to stays as
    the operation of the specification leaves it. *)
Record lib_state := {
  authors : list Author;
  subscribers : list Subscriber;
  ledger : list Message;
  posts : nat;                 (* publishing calls so far *)
  fetches : nat;               (* fetching calls so far *)
  status : option error;       (* error of the latest call, if it failed *)
}.

Definition author_t : Type := nat.
Definition subscriber_t : Type := nat.
Definition address_t : Type := Address.
Definition appinst_t : Type := Address.
Definition message_t : Type := Message.

Definition answer {A} (r : result A) : ptr A :=
  match r with Ok a => Some a | Err _ => None end.

Definition error_of {A} (r : result A) : option error :=
  match r with Ok _ => None | Err e => Some e end.

Definition finished (st : option error) (L : lib_state) : lib_state :=
  {| authors := authors L; subscribers := subscribers L; ledger := ledger L;
     posts := posts L; fetches := fetches L; status := st |}.

Definition failed (e : error) (L : lib_state) : lib_state :=
  finished (Some e) L.

Definition author_at (L : lib_state) (a : ptr author_t) : result Author :=
  match a with
  | Some i => match authors L !! i with
              | Some au => Ok au
              | None => Err NullPointer
              end
  | None => Err NullPointer
  end.

Definition subscriber_at (L : lib_state) (s : ptr subscriber_t)
    : result Subscriber :=
  match s with
  | Some i => match subscribers L !! i with
              | Some su => Ok su
              | None => Err NullPointer
              end
  | None => Err NullPointer
  end.

Definition deref {A} (p : ptr A) : result A :=
  match p with Some a => Ok a | None => Err NullPointer end.

(** An author call that publishes: the author is replaced by its successor,
    the ledger by the ledger after the post, one more post is counted. *)
Definition author_published (L : lib_state) (i : author_t)
    (out : result Address * Author * list Message)
    : ptr address_t * lib_state :=
  (answer out.1.1,
   {| authors := <[i := out.1.2]> (authors L); subscribers := subscribers L;
      ledger := out.2; posts := S (posts L); fetches := fetches L;
      status := error_of out.1.1 |}).

Definition subscriber_published (L : lib_state) (i : subscriber_t)
    (out : result Address * Subscriber * list Message)
    : ptr address_t * lib_state :=
  (answer out.1.1,
   {| authors := authors L; subscribers := <[i := out.1.2]> (subscribers L);
      ledger := out.2; posts := S (posts L); fetches := fetches L;
      status := error_of out.1.1 |}).

Definition author_updated {A} (L : lib_state) (i : author_t)
    (out : result A * Author) : ptr A * lib_state :=
  (answer out.1,
   {| authors := <[i := out.2]> (authors L); subscribers := subscribers L;
      ledger := ledger L; posts := posts L; fetches := fetches L;
      status := error_of out.1 |}).

Definition subscriber_updated {A} (L : lib_state) (i : subscriber_t)
    (out : result A * Subscriber) : ptr A * lib_state :=
  (answer out.1,
   {| authors := authors L; subscribers := <[i := out.2]> (subscribers L);
      ledger := ledger L; posts := posts L; fetches := fetches L;
      status := error_of out.1 |}).

(** [auth_new(seed, encoding, size, multi_branching)] *)
Definition auth_new (accepted : ascii -> bool) (seed encoding : option string)
    (size : Z) (multi_branching : bool) (L : lib_state)
    : ptr author_t * lib_state :=
  match seed, encoding with
  | Some s, Some e =>
      match derive accepted s e with
      | Ok i =>
          (Some (length (authors L)),
           {| authors := authors L ++ [new_author i];
              subscribers := subscribers L; ledger := ledger L;
              posts := posts L; fetches := fetches L; status := None |})
      | Err x => (None, failed x L)
      end
  | _, _ => (None, failed NullPointer L)
  end.

(** [sub_new(seed, encoding, size)] *)
Definition sub_new (accepted : ascii -> bool) (seed encoding : option string)
    (size : Z) (L : lib_state) : ptr subscriber_t * lib_state :=
  match seed, encoding with
  | Some s, Some e =>
      match derive accepted s e with
      | Ok i =>
          (Some (length (subscribers L)),
           {| authors := authors L;
              subscribers := subscribers L ++ [new_subscriber i];
              ledger := ledger L; posts := posts L; fetches := fetches L;
              status := None |})
      | Err x => (None, failed x L)
      end
  | _, _ => (None, failed NullPointer L)
  end.

(** [auth_channel_address(auth)] *)
Definition auth_channel_address (a : ptr author_t) (L : lib_state)
    : ptr appinst_t * lib_state :=
  match author_at L a with
  | Ok au => (Some (channel_address (a_identity au)), finished None L)
  | Err e => (None, failed e L)
  end.

Definition appinst_str (a : appinst_t) : string :=
  String.append (m_seed (channel_id a))
    (String.append ":" (m_encoding (channel_id a))).

(** [get_appinst_str(appinst)] *)
Definition get_appinst_str (a : ptr appinst_t) (L : lib_state)
    : option string * lib_state :=
  match a with
  | Some x => (Some (appinst_str x), finished None L)
  | None => (None, failed NullPointer L)
  end.

(** [auth_announce(auth)] *)
Definition auth_announce (up : bool) (a : ptr author_t) (L : lib_state)
    : ptr address_t * lib_state :=
  match a, author_at L a with
  | Some i, Ok au => author_published L i (announce up (ledger L) au)
  | _, _ => (None, failed NullPointer L)
  end.

(** [get_transaction(link)]: one fetch from the ledger. *)
Definition get_transaction (how : net) (link : ptr address_t) (L : lib_state)
    : ptr message_t * lib_state :=
  let r := rbind (deref link) (fetch how (ledger L)) in
  (answer r,
   {| authors := authors L; subscribers := subscribers L; ledger := ledger L;
      posts := posts L; fetches := S (fetches L); status := error_of r |}).

(** [sub_unwrap_announce(sub, message)] *)
Definition sub_unwrap_announce (s : ptr subscriber_t) (m : ptr message_t)
    (L : lib_state) : unit * lib_state :=
  match s, subscriber_at L s, m with
  | Some i, Ok su, Some msg =>
      (tt, (subscriber_updated L i (unwrap_announcement su msg)).2)
  | _, _, _ => (tt, failed NullPointer L)
  end.

(** [sub_subscribe(sub, announcement_link)] *)
Definition sub_subscribe (up : bool) (s : ptr subscriber_t)
    (link : ptr address_t) (L : lib_state) : ptr address_t * lib_state :=
  match s, subscriber_at L s, link with
  | Some i, Ok su, Some a =>
      subscriber_published L i (subscribe up (ledger L) su a)
  | _, _, _ => (None, failed NullPointer L)
  end.

(** [auth_unwrap_subscribe(auth, message)] *)
Definition auth_unwrap_subscribe (a : ptr author_t) (m : ptr message_t)
    (L : lib_state) : unit * lib_state :=
  match a, author_at L a, m with
  | Some i, Ok au, Some msg =>
      (tt, (author_updated L i (accept_subscription au msg)).2)
  | _, _, _ => (tt, failed NullPointer L)
  end.

(** [auth_share_keyload_for_everyone(auth, link)]; the [message_links_t]
    it answers is represented by its message link. *)
Definition auth_share_keyload_for_everyone (up : bool) (a : ptr author_t)
    (link : ptr address_t) (L : lib_state) : ptr address_t * lib_state :=
  match a, author_at L a, link with
  | Some i, Ok au, Some l =>
      author_published L i (share_keyload up (ledger L) au l)
  | _, _, _ => (None, failed NullPointer L)
  end.

(** [auth_tag_packet(auth, link, public_payload, private_payload)] *)
Definition auth_tag_packet (up : bool) (a : ptr author_t)
    (link : ptr address_t) (public_payload private_payload : option string)
    (L : lib_state) : ptr address_t * lib_state :=
  match a, author_at L a, link, public_payload, private_payload with
  | Some i, Ok au, Some l, Some pub, Some priv =>
      author_published L i (publish_tagged up (ledger L) au l pub priv)
  | _, _, _, _, _ => (None, failed NullPointer L)
  end.

(** The subscriber side of a keyload (section 4.7, [unwrap_keyload]). *)
Definition sub_unwrap_keyload (s : ptr subscriber_t) (m : ptr message_t)
    (L : lib_state) : unit * lib_state :=
  match s, subscriber_at L s, m with
  | Some i, Ok su, Some msg =>
      (tt, (subscriber_updated L i (unwrap_keyload su msg)).2)
  | _, _, _ => (tt, failed NullPointer L)
  end.

(** The subscriber side of a tagged packet (section 4.7, read-decrypt). *)
Definition sub_unwrap_tagged_packet (s : ptr subscriber_t) (m : ptr message_t)
    (L : lib_state) : ptr (string * string) * lib_state :=
  match s, subscriber_at L s, m with
  | Some i, Ok su, Some msg => subscriber_updated L i (unwrap_tagged su msg)
  | _, _, _ => (None, failed NullPointer L)
  end.

End Api.

(* ===================================================================== *)
(** ** The driver: [src/c/main.c] *)
(* ===================================================================== *)

Module Driver.
Import Api.

(** The character arrays of the frame of [main]. *)
Inductive var := seed | charset | encoding | sub_seed_a.

#[global] Instance var_eq_dec : EqDecision var.
Proof. solve_decision. Defined.

(** A [char *] argument: a string literal, an array of the frame, a string
    answered by the library, or null. *)
Inductive cstr :=
| Lit (s : string)
| Ptr (v : var)
| Heap (s : string)
| Null.

(** What [main] asks of its surroundings, indexed by the type of the
    answer: accesses to its arrays, libc, and [include/streams.h]. *)
Inductive call : Type -> Type :=
| c_decl (v : var) (n : nat) (init : string) : call unit
| c_load (v : var) (i : Z) : call ascii
| c_store (v : var) (i : Z) (c : ascii) : call unit
| c_time : call Z
| c_srand (s : Z) : call unit
| c_rand : call Z
| c_printf (fmt : string) (args : list cstr) : call unit
| c_auth_new (seed encoding : cstr) (size : Z) (multi_branching : bool)
    : call (ptr author_t)
| c_auth_channel_address (a : ptr author_t) : call (ptr appinst_t)
| c_get_appinst_str (a : ptr appinst_t) : call cstr
| c_auth_announce (a : ptr author_t) : call (ptr address_t)
| c_get_transaction (link : ptr address_t) : call (ptr message_t)
| c_sub_new (seed encoding : cstr) (size : Z) : call (ptr subscriber_t)
| c_sub_unwrap_announce (s : ptr subscriber_t) (m : ptr message_t) : call unit
| c_sub_subscribe (s : ptr subscriber_t) (link : ptr address_t)
    : call (ptr address_t)
| c_auth_unwrap_subscribe (a : ptr author_t) (m : ptr message_t) : call unit
| c_auth_share_keyload_for_everyone (a : ptr author_t) (link : ptr address_t)
    : call (ptr address_t)
| c_auth_tag_packet (a : ptr author_t) (link : ptr address_t)
    (public_payload private_payload : cstr) : call (ptr address_t)
| c_sub_unwrap_keyload (s : ptr subscriber_t) (m : ptr message_t) : call unit
| c_sub_unwrap_tagged_packet (s : ptr subscriber_t) (m : ptr message_t)
    : call (ptr (string * string)).

(** A program is a tree of calls; [OutOfFuel] stands for a loop that was
    cut off before its exit test failed. *)
Inductive prog (A : Type) : Type :=
| Ret (a : A)
| Vis {X : Type} (c : call X) (k : X -> prog A)
| OutOfFuel.
Arguments Ret {A} a.
Arguments Vis {A X} c k.
Arguments OutOfFuel {A}.

Fixpoint bind {A B} (p : prog A) (f : A -> prog B) : prog B :=
  match p with
  | Ret a => f a
  | Vis c k => Vis c (fun x => bind (k x) f)
  | OutOfFuel => OutOfFuel
  end.

Definition perform {X} (c : call X) : prog X := Vis c Ret.

Declare Scope prog_scope.
Delimit Scope prog_scope with prog.
Bind Scope prog_scope with prog.
Notation "x <- p ;; q" := (bind p (fun x => q))
  (at level 100, p at next level, right associativity) : prog_scope.
Notation "p ;; q" := (bind p (fun _ => q))
  (at level 100, right associativity) : prog_scope.
Local Open Scope prog_scope.

(** The statements and library calls of [main], under their C names. *)
Definition decl v n init := perform (c_decl v n init).
(** [char v[] = init]: the size is that of the literal and its NUL. *)
Definition decl_str v init := decl v (S (String.length init)) init.
Definition load v i := perform (c_load v i).
Definition store v i c := perform (c_store v i c).
Definition time := perform c_time.
Definition srand s := perform (c_srand s).
Definition rand := perform c_rand.
Definition printf fmt args := perform (c_printf fmt args).
Definition auth_new s e size mb := perform (c_auth_new s e size mb).
Definition auth_channel_address a := perform (c_auth_channel_address a).
Definition get_appinst_str a := perform (c_get_appinst_str a).
Definition auth_announce a := perform (c_auth_announce a).
Definition get_transaction l := perform (c_get_transaction l).
Definition sub_new s e size := perform (c_sub_new s e size).
Definition sub_unwrap_announce s m := perform (c_sub_unwrap_announce s m).
Definition sub_subscribe s l := perform (c_sub_subscribe s l).
Definition auth_unwrap_subscribe a m := perform (c_auth_unwrap_subscribe a m).
Definition auth_share_keyload_for_everyone a l :=
  perform (c_auth_share_keyload_for_everyone a l).
Definition auth_tag_packet a l pub priv :=
  perform (c_auth_tag_packet a l pub priv).
Definition sub_unwrap_keyload s m := perform (c_sub_unwrap_keyload s m).
Definition sub_unwrap_tagged_packet s m :=
  perform (c_sub_unwrap_tagged_packet s m).

(** [for (n = start; cond(n); n = next(n)) body(n)].  Every test of the
    condition costs one unit of fuel. *)
Fixpoint for_loop (fuel : nat) (cond : Z -> bool) (next : Z -> Z) (n : Z)
    (body : Z -> prog unit) : prog unit :=
  match fuel with
  | O => OutOfFuel
  | S fuel' =>
      if cond n then body n ;; for_loop fuel' cond next (next n) body
      else Ret tt
  end.

Definition charset_init : string := "ABCDEFGHIJKLMNOPQRSTUVWXYZ9".

(** [sizeof charset]: the characters of the literal and its NUL. *)
Definition sizeof_charset : Z := Z.of_nat (S (String.length charset_init)).

(** [int main()], statement by statement, in its two parts.  Format
    strings are kept as they are spelled in the source.

    Lines 9 to 18: the seed of the author is drawn from [charset]. *)
Definition seed_generation (fuel : nat) : prog unit :=
  decl seed 10 "" ;;
  decl_str charset charset_init ;;
  t <- time ;;
  srand (to_uint t) ;;
  for_loop fuel (fun n => n <? 10) (fun n => to_size_t (n + 1)) 0
    (fun n =>
       r <- rand ;;
       let key := Z.rem r (to_int (sizeof_charset - 1)) in
       c <- load charset key ;;
       store seed n c) ;;
  store seed 10 NUL.

(** Lines 20 to 90: the author, the announcement, the subscriber, the
    subscription.  The block comment of lines 60 to 87 (keyload, tagged
    and signed packet) is not code. *)
Definition session (multi_branching : bool) : prog Z :=
  decl_str encoding "utf-8" ;;
  let size := 1024 in
  printf "Making author with %s\n" [Ptr seed] ;;
  auth <- auth_new (Ptr seed) (Ptr encoding) size multi_branching ;;
  printf "Made an author... " [] ;;
  appinst <- auth_channel_address auth ;;
  appinst_str <- get_appinst_str appinst ;;
  printf "With AppInst: %s\n\n" [appinst_str] ;;
  printf "Sending announcement\n" [] ;;
  ann_link <- auth_announce auth ;;
  printf "Made an announcement\n\n" [] ;;
  printf "Fetching Transaction\n" [] ;;
  ann_packet <- get_transaction ann_link ;;
  printf "Got the transaction\n\n" [] ;;
  decl_str sub_seed_a "SUBSCRIBERA9SEED" ;;
  printf "Making Sub A with %s\n" [Ptr sub_seed_a] ;;
  subA <- sub_new (Lit "sub_seed_a") (Ptr encoding) size ;;
  printf "Made an sub A... \n" [] ;;
  printf "Unwrapping announcement packet... \n" [] ;;
  sub_unwrap_announce subA ann_packet ;;
  printf "Announcement unwrapped, generating subscription message...\n" [] ;;
  sub_link <- sub_subscribe subA ann_link ;;
  printf "Subscription packet created, Fetching Transaction\n" [] ;;
  sub_packet <- get_transaction sub_link ;;
  printf "Accepting Sub A to author subscription list\n" [] ;;
  auth_unwrap_subscribe auth sub_packet ;;
  printf "Sub A subscribed!\n" [] ;;
  Ret 0.

Definition main (fuel : nat) : prog Z :=
  let multi_branching := true in
  seed_generation fuel ;;
  session multi_branching.

End Driver.

(* ===================================================================== *)
(** ** Running the driver *)
(* ===================================================================== *)

Module Run.
Import Streams Api Driver.

(** Everything [main] does not decide itself. *)
Record env := {
  now : Z;                       (* the answer of time(NULL) *)
  rand_out : Z -> nat -> Z;      (* rand(): by srand seed and earlier calls *)
  beyond : var -> list ascii;    (* the bytes after an array in the frame *)
  accepted : ascii -> bool;      (* the seed characters the library accepts *)
  ledger0 : list Message;        (* the ledger when main starts *)
  post_up : nat -> bool;         (* does the k-th post reach the ledger *)
  fetch_net : nat -> net;        (* how the ledger answers the k-th fetch *)
}.

Record world := {
  mem : list (var * carray);
  rng_seed : Z;
  rng_calls : nat;
  lib : lib_state;
}.

Definition start (e : env) : world :=
  {| mem := []; rng_seed := 1; rng_calls := 0;
     lib := {| authors := []; subscribers := []; ledger := ledger0 e;
               posts := 0; fetches := 0; status := None |} |}.

Fixpoint mem_get (m : list (var * carray)) (v : var) : option carray :=
  match m with
  | [] => None
  | (v', a) :: rest => if decide (v = v') then Some a else mem_get rest v
  end.

Fixpoint mem_update (m : list (var * carray)) (v : var)
    (f : list ascii -> list ascii) : list (var * carray) :=
  match m with
  | [] => []
  | (v', a) :: rest =>
      if decide (v = v') then (v', {| cap := cap a; bytes := f (bytes a) |}) :: rest
      else (v', a) :: mem_update rest v f
  end.

(** The string a [char *] argument designates. *)
Definition resolve (m : list (var * carray)) (s : cstr) : option string :=
  match s with
  | Lit x | Heap x => Some x
  | Ptr v => c_string <$> (bytes <$> mem_get m v)
  | Null => None
  end.

Definition with_mem (w : world) (m : list (var * carray)) : world :=
  {| mem := m; rng_seed := rng_seed w; rng_calls := rng_calls w; lib := lib w |}.

Definition with_lib {A} (w : world) (r : A * lib_state) : A * world :=
  (r.1, {| mem := mem w; rng_seed := rng_seed w; rng_calls := rng_calls w;
           lib := r.2 |}).

Definition to_cstr (s : option string) : cstr :=
  match s with Some x => Heap x | None => Null end.

(** One call, answered in environment [e] from world [w].  A load or a
    store goes where its index lands in the bytes at the array, within the
    declared elements or after them; C leaves the latter undefined, every
    such access is visible in the execution (see [Trace.accesses]), and
    [handle_in] below answers it in a frame where another array lies
    there.  A library call returns in every case; when it fails, [main]
    has no test that would stop it. *)
Definition handle (e : env) {X} (c : call X) (w : world) : X * world :=
  match c in call X return X * world with
  | c_decl v n init =>
      (tt, with_mem w ((v, {| cap := n; bytes := initialised n init ++ beyond e v |})
                         :: mem w))
  | c_load v i =>
      (match mem_get (mem w) v with
       | Some a => load_byte (bytes a) i
       | None => NUL
       end, w)
  | c_store v i c => (tt, with_mem w (mem_update (mem w) v (store_byte i c)))
  | c_time => (now e, w)
  | c_srand s =>
      (tt, {| mem := mem w; rng_seed := s; rng_calls := 0; lib := lib w |})
  | c_rand =>
      (rand_out e (rng_seed w) (rng_calls w),
       {| mem := mem w; rng_seed := rng_seed w; rng_calls := S (rng_calls w);
          lib := lib w |})
  | c_printf _ _ => (tt, w)
  | c_auth_new s en size mb =>
      with_lib w (Api.auth_new (accepted e) (resolve (mem w) s) (resolve (mem w) en)
                    size mb (lib w))
  | c_auth_channel_address a => with_lib w (Api.auth_channel_address a (lib w))
  | c_get_appinst_str a =>
      let r := with_lib w (Api.get_appinst_str a (lib w)) in (to_cstr r.1, r.2)
  | c_auth_announce a =>
      with_lib w (Api.auth_announce (post_up e (posts (lib w))) a (lib w))
  | c_get_transaction l =>
      with_lib w (Api.get_transaction (fetch_net e (fetches (lib w))) l (lib w))
  | c_sub_new s en size =>
      with_lib w (Api.sub_new (accepted e) (resolve (mem w) s) (resolve (mem w) en)
                    size (lib w))
  | c_sub_unwrap_announce s m => with_lib w (Api.sub_unwrap_announce s m (lib w))
  | c_sub_subscribe s l =>
      with_lib w (Api.sub_subscribe (post_up e (posts (lib w))) s l (lib w))
  | c_auth_unwrap_subscribe a m => with_lib w (Api.auth_unwrap_subscribe a m (lib w))
  | c_auth_share_keyload_for_everyone a l =>
      with_lib w (Api.auth_share_keyload_for_everyone
                    (post_up e (posts (lib w))) a l (lib w))
  | c_auth_tag_packet a l pub priv =>
      with_lib w (Api.auth_tag_packet (post_up e (posts (lib w))) a l
                    (resolve (mem w) pub) (resolve (mem w) priv) (lib w))
  | c_sub_unwrap_keyload s m => with_lib w (Api.sub_unwrap_keyload s m (lib w))
  | c_sub_unwrap_tagged_packet s m =>
      with_lib w (Api.sub_unwrap_tagged_packet s m (lib w))
  end.

(** A call of the execution with its answer, between the world it was
    made in and the world it left. *)
Inductive event :=
| Ev {X : Type} (c : call X) (x : X).

Record step := { before : world; ev : event; after : world }.

Definition trace : Type := list step.

(** The steps of a program from a world, and its result: the value it
    returns and the last world, or nothing when a loop ran out of fuel. *)
Fixpoint exec {A} (e : env) (p : prog A) (w : world)
    : trace * option (A * world) :=
  match p with
  | Ret a => ([], Some (a, w))
  | OutOfFuel => ([], None)
  | Vis c k =>
      let r := handle e c w in
      let rest := exec e (k r.1) r.2 in
      ({| before := w; ev := Ev c r.1; after := r.2 |} :: rest.1, rest.2)
  end.

(** An execution of [main]. *)
Definition run (e : env) (fuel : nat) : trace * option (Z * world) :=
  exec e (main fuel) (start e).

Definition steps (e : env) (fuel : nat) : trace := (run e fuel).1.

Definition exit_code (e : env) (fuel : nat) : option Z :=
  fst <$> (run e fuel).2.

(** *** Where the store of line 18 lands

    [handle] gives every array bytes of its own after its declared
    elements ([beyond]): the byte at [seed + 10] is then no object of
    [main], and nothing but the store of line 18 writes it.  C promises no
    such thing: the store is outside [seed], and the frame may hold another
    object there.  [encoding] is the one that is initialised after line 18
    and before [seed] is read as a string; in a frame that puts it directly
    after [seed], its bytes are the bytes that follow the ten elements of
    [seed]. *)
Inductive layout := Apart | EncodingAfterSeed.

(** [encoding] has been written: the bytes after the elements of [seed]
    are those of [encoding]. *)
Definition tail_from_encoding (m : list (var * carray)) : list (var * carray) :=
  match mem_get m seed, mem_get m encoding with
  | Some a, Some b => mem_update m seed (fun bs => take (cap a) bs ++ bytes b)
  | _, _ => m
  end.

(** [seed] has been written: the bytes of [encoding] are those after the
    elements of [seed]. *)
Definition tail_to_encoding (m : list (var * carray)) : list (var * carray) :=
  match mem_get m seed, mem_get m encoding with
  | Some a, Some _ => mem_update m encoding (fun _ => drop (cap a) (bytes a))
  | _, _ => m
  end.

(** What a call that writes one of the two arrays does to the other. *)
Definition overlap {X} (c : call X) (m : list (var * carray))
    : list (var * carray) :=
  match c with
  | c_store seed _ _ => tail_to_encoding m
  | c_decl seed _ _ | c_decl encoding _ _ | c_store encoding _ _ =>
      tail_from_encoding m
  | _ => m
  end.

(** One call, answered in a frame laid out as [l]. *)
Definition handle_in (l : layout) (e : env) {X} (c : call X) (w : world)
    : X * world :=
  match l with
  | Apart => handle e c w
  | EncodingAfterSeed =>
      let r := handle e c w in (r.1, with_mem r.2 (overlap c (mem r.2)))
  end.

Fixpoint exec_in {A} (l : layout) (e : env) (p : prog A) (w : world)
    : trace * option (A * world) :=
  match p with
  | Ret a => ([], Some (a, w))
  | OutOfFuel => ([], None)
  | Vis c k =>
      let r := handle_in l e c w in
      let rest := exec_in l e (k r.1) r.2 in
      ({| before := w; ev := Ev c r.1; after := r.2 |} :: rest.1, rest.2)
  end.

(** An execution of [main] in a frame laid out as [l]. *)
Definition steps_in (l : layout) (e : env) (fuel : nat) : trace :=
  (exec_in l e (main fuel) (start e)).1.

End Run.

(* ===================================================================== *)
(** ** Reading executions *)
(* ===================================================================== *)

Module Trace.
Import Streams Api Driver Run.

(** The function a call names. *)
Inductive fn :=
| F_decl | F_load | F_store | F_time | F_srand | F_rand | F_printf
| F_auth_new | F_auth_channel_address | F_get_appinst_str | F_auth_announce
| F_get_transaction | F_sub_new | F_sub_unwrap_announce | F_sub_subscribe
| F_auth_unwrap_subscribe | F_auth_share_keyload_for_everyone
| F_auth_tag_packet | F_sub_unwrap_keyload | F_sub_unwrap_tagged_packet.

#[global] Instance fn_eq_dec : EqDecision fn.
Proof. solve_decision. Defined.

Definition fn_of {X} (c : call X) : fn :=
  match c with
  | c_decl _ _ _ => F_decl
  | c_load _ _ => F_load
  | c_store _ _ _ => F_store
  | c_time => F_time
  | c_srand _ => F_srand
  | c_rand => F_rand
  | c_printf _ _ => F_printf
  | c_auth_new _ _ _ _ => F_auth_new
  | c_auth_channel_address _ => F_auth_channel_address
  | c_get_appinst_str _ => F_get_appinst_str
  | c_auth_announce _ => F_auth_announce
  | c_get_transaction _ => F_get_transaction
  | c_sub_new _ _ _ => F_sub_new
  | c_sub_unwrap_announce _ _ => F_sub_unwrap_announce
  | c_sub_subscribe _ _ => F_sub_subscribe
  | c_auth_unwrap_subscribe _ _ => F_auth_unwrap_subscribe
  | c_auth_share_keyload_for_everyone _ _ => F_auth_share_keyload_for_everyone
  | c_auth_tag_packet _ _ _ _ => F_auth_tag_packet
  | c_sub_unwrap_keyload _ _ => F_sub_unwrap_keyload
  | c_sub_unwrap_tagged_packet _ _ => F_sub_unwrap_tagged_packet
  end.

Definition called (st : step) : fn :=
  match ev st with Ev c _ => fn_of c end.

(** The functions of [include/streams.h], as opposed to array accesses and
    libc. *)
Definition library_call (f : fn) : bool :=
  match f with
  | F_decl | F_load | F_store | F_time | F_srand | F_rand | F_printf => false
  | _ => true
  end.

Definition api_event (st : step) : bool := library_call (called st).

(** The error a step failed with: the status a library call leaves. *)
Definition failure (st : step) : option error :=
  if api_event st then status (lib (after st)) else None.

Definition trace_of {A} (e : env) (p : prog A) (w : world) : trace :=
  (exec e p w).1.

Definition result_of {A} (e : env) (p : prog A) (w : world)
    : option (A * world) :=
  (exec e p w).2.

(** The steps that call [f], the library calls in order, and the same with
    their arguments and answers. *)
Definition at_call (f : fn) (tr : trace) : trace :=
  List.filter (fun st => bool_decide (called st = f)) tr.

Definition library_calls (tr : trace) : list fn :=
  List.map called (List.filter api_event tr).

Definition library_events (tr : trace) : list event :=
  List.map ev (List.filter api_event tr).

(** *** Array accesses *)

Inductive direction := Read | Written.

#[global] Instance direction_eq_dec : EqDecision direction.
Proof. solve_decision. Defined.

(** An access [v[i]], with the number of elements [v] is declared with. *)
Record access := {
  acc_dir : direction;
  acc_var : var;
  acc_index : Z;
  acc_cap : option nat;
}.

(** The access a step makes by a subscript of [main].  What a callee
    reads through a pointer it is given ([printf] and [auth_new] read
    [seed] up to its terminator) is the callee's and is not recorded. *)
Definition access_of (st : step) : option access :=
  match ev st with
  | Ev c _ =>
      match c with
      | c_load v i =>
          Some {| acc_dir := Read; acc_var := v; acc_index := i;
                  acc_cap := cap <$> mem_get (mem (before st)) v |}
      | c_store v i _ =>
          Some {| acc_dir := Written; acc_var := v; acc_index := i;
                  acc_cap := cap <$> mem_get (mem (before st)) v |}
      | _ => None
      end
  end.

Definition accesses (tr : trace) : list access := omap access_of tr.

Definition within (a : access) : bool :=
  match acc_cap a with
  | Some n => (0 <=? acc_index a) && (acc_index a <? Z.of_nat n)
  | None => false
  end.

Definition written (v : var) (a : access) : bool :=
  bool_decide (acc_dir a = Written /\ acc_var a = v).


(** *** Strings as the callee reads them *)

(** The seed string handed to [auth_new] or [sub_new]. *)
Definition seed_given (st : step) : option (option string) :=
  match ev st with
  | Ev c _ =>
      match c with
      | c_auth_new s _ _ _ | c_sub_new s _ _ => Some (resolve (mem (before st)) s)
      | _ => None
      end
  end.

Definition seeds_given (f : fn) (tr : trace) : list (option string) :=
  omap seed_given (at_call f tr).

(** What a [printf] step prints for its [%s] arguments. *)
Definition printed (st : step) : option (list (option string)) :=
  match ev st with
  | Ev c _ =>
      match c with
      | c_printf _ args => Some (resolve (mem (before st)) <$> args)
      | _ => None
      end
  end.

(** For every [sub_new] that directly follows a [printf]: what the [printf]
    reported, and the seed [sub_new] was given. *)
Fixpoint reported_then_given (tr : trace)
    : list (list (option string) * option string) :=
  match tr with
  | [] => []
  | p :: rest =>
      match rest with
      | s :: _ =>
          match printed p, called s, seed_given s with
          | Some shown, F_sub_new, Some given =>
              (shown, given) :: reported_then_given rest
          | _, _, _ => reported_then_given rest
          end
      | [] => []
      end
  end.

(** *** The seed generation in closed form *)

Definition tryte (c : ascii) : Prop := c ∈ list_ascii_of_string charset_init.

Definition rand_in_range (e : env) : Prop :=
  forall s n, 0 <= rand_out e s n <= INT_MAX.


Definition charset_bytes (e : env) : list ascii :=
  initialised 28 charset_init ++ beyond e charset.

(** The character the [k]-th iteration of the loop stores. *)
Definition pick (e : env) (k : nat) : ascii :=
  load_byte (charset_bytes e) (Z.rem (rand_out e (to_uint (now e)) k) 27).

(** The world after line 18. *)
Definition seeded (e : env) : world :=
  {| mem :=
       [(charset, {| cap := 28; bytes := charset_bytes e |});
        (seed, {| cap := 10;
                  bytes := (pick e <$> seq 0 10) ++ <[0%nat := NUL]> (beyond e seed) |})];
     rng_seed := to_uint (now e);
     rng_calls := 10;
     lib := lib (start e) |}.

(** *** Subscriber states along an execution *)

Definition no_active (w : world) : Prop :=
  Forall (fun s => s_state s <> SubscriberState.Active) (subscribers (lib w)).

Definition is_active (s : Subscriber) : bool :=
  bool_decide (s_state s = SubscriberState.Active).

(** *** The end-to-end scenario of section 8 *)

Definition scenario : list fn :=
  [F_auth_announce; F_sub_unwrap_announce; F_sub_subscribe;
   F_auth_unwrap_subscribe; F_auth_share_keyload_for_everyone;
   F_sub_unwrap_keyload; F_auth_tag_packet; F_sub_unwrap_tagged_packet].

Fixpoint subsequence (l tr : list fn) {struct tr} : bool :=
  match l, tr with
  | [], _ => true
  | _ :: _, [] => false
  | x :: l', y :: tr' =>
      if decide (x = y) then subsequence l' tr' else subsequence l tr'
  end.

(** The payloads a step publishes in a tagged packet. *)
Definition published (st : step) : option (string * string) :=
  match ev st with
  | Ev c _ =>
      match c with
      | c_auth_tag_packet _ _ pub priv =>
          match resolve (mem (before st)) pub, resolve (mem (before st)) priv with
          | Some a, Some b => Some (a, b)
          | _, _ => None
          end
      | _ => None
      end
  end.

(** The payloads a step recovers from a tagged packet. *)
Definition recovered (st : step) : option (string * string) :=
  match ev st with
  | Ev c x =>
      match c in call X return X -> option (string * string) with
      | c_sub_unwrap_tagged_packet _ _ => fun r => r
      | _ => fun _ => None
      end x
  end.

Definition same_payloads (p r : step) : bool :=
  match published p, recovered r with
  | Some a, Some b => bool_decide (a = b)
  | _, _ => false
  end.

(** The execution goes through the whole scenario: its calls in order, a
    subscriber that reaches [Active], and a tagged packet whose two payloads
    a subscriber recovers. *)
Definition runs_scenario (tr : trace) : bool :=
  subsequence scenario (List.map called tr)
  && existsb (fun st => existsb is_active (subscribers (lib (after st)))) tr
  && existsb (fun p => existsb (same_payloads p) tr) tr.

(** Modelled from the spec: the end-to-end scenario of section 8 as a
    driver of its own, to run the protocol model on. *)
Definition end_to_end : prog Z :=
  (auth <- auth_new (Lit "AUTHOR9SEED") (Lit "utf-8") 1024 true ;;
   ann_link <- auth_announce auth ;;
   ann_packet <- get_transaction ann_link ;;
   subA <- sub_new (Lit "SUBSCRIBERA9SEED") (Lit "utf-8") 1024 ;;
   sub_unwrap_announce subA ann_packet ;;
   sub_link <- sub_subscribe subA ann_link ;;
   sub_packet <- get_transaction sub_link ;;
   auth_unwrap_subscribe auth sub_packet ;;
   keyload_link <- auth_share_keyload_for_everyone auth ann_link ;;
   keyload_packet <- get_transaction keyload_link ;;
   sub_unwrap_keyload subA keyload_packet ;;
   tagged_link <- auth_tag_packet auth keyload_link (Lit "P") (Lit "S") ;;
   tagged_packet <- get_transaction tagged_link ;;
   sub_unwrap_tagged_packet subA tagged_packet ;;
   Ret 0)%prog.

(** *** The precondition of [subscribe] *)

(** No call of [sub_subscribe] fails with [AnnouncementUnknown]. *)
Definition subscribe_precondition_holds (tr : trace) : Prop :=
  Forall (fun st => called st = F_sub_subscribe ->
                    failure st <> Some (Protocol AnnouncementUnknown)) tr.

#[global] Instance subscribe_precondition_holds_dec tr :
  Decision (subscribe_precondition_holds tr).
Proof. unfold subscribe_precondition_holds. apply _. Defined.

(** *** Fetching *)

(** A fetch that found nothing is followed by another fetch: over the
    library calls of an execution, in order. *)
Definition unanswered (st : step) : bool :=
  match ev st with
  | Ev c x =>
      match c in call X return X -> bool with
      | c_get_transaction _ => fun r => bool_decide (r = None)
      | _ => fun _ => false
      end x
  end.

Definition fetch_or_unwrap (x : event) : bool :=
  match x with
  | Ev c _ =>
      match fn_of c with
      | F_get_transaction | F_sub_unwrap_announce | F_auth_unwrap_subscribe => true
      | _ => false
      end
  end.

Fixpoint retried (calls : trace) : bool :=
  match calls with
  | [] => true
  | st :: rest =>
      (negb (unanswered st)
       || match rest with
          | next :: _ => bool_decide (called next = F_get_transaction)
          | [] => false
          end)
      && retried rest
  end.

Definition fetches_retried (tr : trace) : bool :=
  retried (List.filter api_event tr).

(** *** Properties kept along an execution *)

(** [ok] accepts every call of [l], knowing the calls [h] made before it. *)
Fixpoint checked (ok : list fn -> fn -> bool) (h l : list fn) : bool :=
  match l with
  | [] => true
  | f :: rest => ok h f && checked ok (h ++ [f]) rest
  end.

(** [G] holds of every step of [tr], knowing the calls made before it. *)
Fixpoint guaranteed (G : list fn -> step -> Prop) (h : list fn) (tr : trace)
    : Prop :=
  match tr with
  | [] => True
  | st :: rest => G h st /\ guaranteed G (h ++ [called st]) rest
  end.

(** No call issues or applies a keyload. *)
Definition no_keyload (h : list fn) (f : fn) : bool :=
  match f with
  | F_sub_unwrap_keyload => false
  | _ => true
  end.

(** [auth_announce] at most once, and no call that moves an author past
    [Announced]. *)
Definition announce_once (h : list fn) (f : fn) : bool :=
  match f with
  | F_auth_announce => negb (bool_decide (F_auth_announce ∈ h))
  | F_auth_share_keyload_for_everyone | F_auth_tag_packet => false
  | _ => true
  end.

Definition all_created (w : world) : Prop :=
  Forall (fun a => a_state a = AuthorState.Created) (authors (lib w)).

(** Until [auth_announce] has been called, every author is [Created]. *)
Definition not_yet_announced (h : list fn) (w : world) : Prop :=
  F_auth_announce ∈ h \/ all_created w.

(** A subscriber that is at least [AnnouncementKnown]: it has left
    [Created] and has recorded the channel. *)
Definition announcement_known (s : Subscriber) : Prop :=
  s_state s <> SubscriberState.Created /\ channel (s_view s) <> None.

(** *** Environments to run in *)

(** Nothing on the ledger at the start, every post arrives, every fetch is
    served, every seed character is accepted. *)
Definition calm : env :=
  {| now := 1600000000;
     rand_out := fun s n => Z.modulo (s + 7919 * Z.of_nat n) 32768;
     beyond := fun _ => ["#"%char; "#"%char];
     accepted := fun _ => true;
     ledger0 := [];
     post_up := fun _ => true;
     fetch_net := fun _ => Served |}.

(** As [calm], with a library that accepts the characters of [charset]
    only. *)
Definition strict : env :=
  {| now := now calm; rand_out := rand_out calm; beyond := beyond calm;
     accepted := fun c => bool_decide (tryte c);
     ledger0 := []; post_up := fun _ => true; fetch_net := fun _ => Served |}.

(** As [calm], with a ledger on which the announcement is not yet
    available when it is first fetched. *)
Definition late : env :=
  {| now := now calm; rand_out := rand_out calm; beyond := beyond calm;
     accepted := fun _ => true; ledger0 := []; post_up := fun _ => true;
     fetch_net := fun k => match k with O => NotYetAvailable | _ => Served end |}.

(** *** More to read off an execution *)

(** The subscripts of [main] ([charset[key]], [seed[n]], [seed[10]]) that
    fall outside the declared elements of their array.  What a callee
    reads through a pointer it was given is not a subscript of [main] and
    is not among them. *)
Definition out_of_bounds (tr : trace) : list access :=
  List.filter (fun a => negb (within a)) (accesses tr).

(** [charset[rand() % 27]] for the [k]-th answer of [rand()] after
    [srand((unsigned) time(NULL))], read in the literal. *)
Definition drawn (e : env) (k : nat) : ascii :=
  default NUL
    (list_ascii_of_string charset_init
       !! Z.to_nat (Z.rem (rand_out e (to_uint (now e)) k) 27)).

(** The access pair of iteration [k] of the loop: line 15 and 16. *)
Definition iteration (e : env) (k : nat) : list access :=
  [{| acc_dir := Read; acc_var := charset;
      acc_index := Z.rem (rand_out e (to_uint (now e)) k) 27;
      acc_cap := Some 28%nat |};
   {| acc_dir := Written; acc_var := seed; acc_index := Z.of_nat k;
      acc_cap := Some 10%nat |}].

(** For every call of [f] that directly follows a [printf]: what the
    [printf] reported, and the seed the call was given. *)
Fixpoint reported_then_given_to (f : fn) (tr : trace)
    : list (list (option string) * option string) :=
  match tr with
  | [] => []
  | p :: rest =>
      match rest with
      | s :: _ =>
          match printed p, seed_given s with
          | Some shown, Some given =>
              if decide (called s = f) then
                (shown, given) :: reported_then_given_to f rest
              else reported_then_given_to f rest
          | _, _ => reported_then_given_to f rest
          end
      | [] => []
      end
  end.

(** The declared elements of [seed] when a step is made. *)
Definition seed_elements (st : step) : option (list ascii) :=
  (fun a => take (cap a) (bytes a)) <$> mem_get (mem (before st)) seed.

(** *** Runs against any answers *)

(** [evs] is a run of [p] that returns [a]: the calls [p] makes, in order,
    each with some answer, [p] going on from that answer.  Nothing is said
    of where an answer comes from: not of the clock, the generator, the
    memory or the library. *)
Fixpoint run_of {A} (p : prog A) (evs : list event) (a : A) : Prop :=
  match p with
  | Ret x => evs = [] /\ a = x
  | Vis c k => exists x rest, evs = Ev c x :: rest /\ run_of (k x) rest a
  | OutOfFuel => False
  end.

Definition kind (v : event) : fn :=
  match v with Ev c _ => fn_of c end.

(** The calls of functions, as opposed to the declarations and the array
    subscripts that the embedding also records as events. *)
Definition function_call (v : event) : bool :=
  match kind v with
  | F_decl | F_load | F_store => false
  | _ => true
  end.

(** The calls that make the seed: the clock, the generator and the array
    accesses. *)
Definition seed_making (v : event) : bool :=
  match kind v with
  | F_time | F_srand | F_rand | F_load | F_store => true
  | _ => false
  end.

(** Iteration [k] of the loop, when [rand()] answers [r] and the load [c]. *)
Definition iteration_events (k : nat) (d : Z * ascii) : list event :=
  [Ev c_rand d.1;
   Ev (c_load charset (Z.rem d.1 (to_int (sizeof_charset - 1)))) d.2;
   Ev (c_store seed (Z.of_nat k) d.2) tt].

(** The format strings printed, in order. *)
Definition format_of (v : event) : option string :=
  match v with
  | Ev c _ =>
      match c with
      | c_printf fmt _ => Some fmt
      | _ => None
      end
  end.

Definition formats (evs : list event) : list string := omap format_of evs.

(** The format strings of the [printf] calls of [main], lines 24 to 59, in
    source order and as the source spells them: the two characters of the
    escape [\n] stand for the line feed the program prints. *)
Definition messages : list string :=
  ["Making author with %s\n"; "Made an author... "; "With AppInst: %s\n\n";
   "Sending announcement\n"; "Made an announcement\n\n";
   "Fetching Transaction\n"; "Got the transaction\n\n";
   "Making Sub A with %s\n"; "Made an sub A... \n";
   "Unwrapping announcement packet... \n";
   "Announcement unwrapped, generating subscription message...\n";
   "Subscription packet created, Fetching Transaction\n";
   "Accepting Sub A to author subscription list\n"; "Sub A subscribed!\n"].

(** An execution 2^32 seconds after [calm], with nothing after the arrays,
    the strict alphabet and a network that is down. *)
Definition wrapped : env :=
  {| now := now calm + 2 ^ 32; rand_out := rand_out calm;
     beyond := fun _ => [];
     accepted := fun c => bool_decide (tryte c);
     ledger0 := []; post_up := fun _ => false; fetch_net := fun _ => Down |}.

End Trace.

Import Streams Api Driver Run Trace.

(* ===================================================================== *)
(** ** Executing programs: general facts *)
(* ===================================================================== *)

Lemma exec_bind e A B (p : prog A) (f : A -> prog B) w :
  exec e (bind p f) w =
  match result_of e p w with
  | Some (a, w') => (trace_of e p w ++ trace_of e (f a) w', result_of e (f a) w')
  | None => (trace_of e p w, None)
  end.
Proof.
  unfold result_of, trace_of. revert w.
  induction p as [a|X c k IH|]; intros w; simpl.
  - destruct (exec e (f a) w); reflexivity.
  - rewrite IH.
    destruct ((exec e (k (handle e c w).1) (handle e c w).2).2) as [[a w']|];
      reflexivity.
  - reflexivity.
Qed.

Lemma trace_of_ret e A (a : A) w : trace_of e (Ret a) w = [].
Proof. reflexivity. Qed.

(** One step of an execution, with a name for what the call answers. *)
Lemma trace_of_step e A X (c : call X) (k : X -> prog A) w (Q : trace -> Prop) :
  (forall r, r = handle e c w ->
     Q ({| before := w; ev := Ev c r.1; after := r.2 |} :: trace_of e (k r.1) r.2)) ->
  Q (trace_of e (Vis c k) w).
Proof. intros H. apply (H _ eq_refl). Qed.

Ltac step :=
  match goal with
  | |- context C [trace_of ?e (Vis ?c ?k) ?w] =>
      let Q := constr:(fun t : trace => ltac:(let g := context C [t] in exact g)) in
      apply (trace_of_step e _ _ c k w Q); intros ? ?; cbv beta
  end.

(** Evaluation that leaves alone what the environment decides, the
    arithmetic on it, and the library. *)
Ltac sym :=
  lazy -[Z.rem to_uint load_byte rand_out now beyond ledger0 accepted post_up
         fetch_net Api.auth_new Api.auth_channel_address Api.get_appinst_str
         Api.auth_announce Api.get_transaction Api.sub_new
         Api.sub_unwrap_announce Api.sub_subscribe Api.auth_unwrap_subscribe
         Api.auth_share_keyload_for_everyone Api.auth_tag_packet
         Api.sub_unwrap_keyload Api.sub_unwrap_tagged_packet].

Ltac sym_strings :=
  lazy -[Z.rem to_uint load_byte rand_out now beyond ledger0 accepted post_up
         fetch_net c_string Api.auth_new Api.auth_channel_address
         Api.get_appinst_str Api.auth_announce Api.get_transaction Api.sub_new
         Api.sub_unwrap_announce Api.sub_subscribe Api.auth_unwrap_subscribe
         Api.auth_share_keyload_for_everyone Api.auth_tag_packet
         Api.sub_unwrap_keyload Api.sub_unwrap_tagged_packet].

(* ===================================================================== *)
(** ** The loop of [main] and its fuel *)
(* ===================================================================== *)

(** Eleven tests of [n < 10] are all the loop makes: ten that pass and the
    one that ends it.  More fuel changes nothing. *)
Lemma seed_generation_fuel k : seed_generation (11 + k) = seed_generation 11.
Proof. reflexivity. Qed.

Lemma run_fuel e fuel : (11 <= fuel)%nat -> run e fuel = run e 11.
Proof.
  intros H. replace fuel with (11 + (fuel - 11))%nat by lia.
  unfold run, main. rewrite seed_generation_fuel. reflexivity.
Qed.

Lemma steps_fuel e fuel : (11 <= fuel)%nat -> steps e fuel = steps e 11.
Proof. intros H. unfold steps. rewrite (run_fuel e fuel H). reflexivity. Qed.

Lemma exit_code_fuel e fuel : (11 <= fuel)%nat -> exit_code e fuel = exit_code e 11.
Proof. intros H. unfold exit_code. rewrite (run_fuel e fuel H). reflexivity. Qed.

(** With less fuel the loop is cut off. *)
Lemma short_of_fuel e fuel : (fuel < 11)%nat -> exit_code e fuel = None.
Proof.
  intros H.
  do 11 (destruct fuel as [|fuel]; [sym; reflexivity|]). lia.
Qed.

Lemma seed_generation_result e :
  result_of e (seed_generation 11) (start e) = Some (tt, seeded e).
Proof. sym. reflexivity. Qed.

Lemma steps_split e :
  steps e 11 =
  trace_of e (seed_generation 11) (start e) ++ trace_of e (session true) (seeded e).
Proof.
  unfold steps, run, main. rewrite exec_bind, seed_generation_result. reflexivity.
Qed.

(** The library calls of an execution, whatever the environment. *)
Lemma main_library_calls e :
  library_calls (steps e 11) =
  [F_auth_new; F_auth_channel_address; F_get_appinst_str; F_auth_announce;
   F_get_transaction; F_sub_new; F_sub_unwrap_announce; F_sub_subscribe;
   F_get_transaction; F_auth_unwrap_subscribe].
Proof. sym. reflexivity. Qed.

(** No step before line 20 is a library call. *)
Lemma seed_generation_calls e :
  List.filter api_event (trace_of e (seed_generation 11) (start e)) = [].
Proof. sym. reflexivity. Qed.

(* ===================================================================== *)
(** ** Termination and exit code *)
(* ===================================================================== *)

(** C10.  [main] terminates and returns 0: given the fuel for the eleven
    tests of [n < 10] that its one loop makes, every execution reaches
    [return 0], and the loop body (one [rand()] per iteration) has run
    exactly ten times. *)
Theorem main_terminates e fuel :
  (11 <= fuel)%nat ->
  exit_code e fuel = Some 0 /\ length (at_call F_rand (steps e fuel)) = 10%nat.
Proof.
  intros H. rewrite (exit_code_fuel e fuel H), (steps_fuel e fuel H).
  split; sym; reflexivity.
Qed.

Lemma main_terminates_witness :
  (11 <= 11)%nat /\
  exit_code calm 11 = Some 0 /\ length (at_call F_rand (steps calm 11)) = 10%nat.
Proof. split; [lia | apply (main_terminates calm 11); lia]. Defined.

(* ===================================================================== *)
(** ** Array accesses *)
(* ===================================================================== *)

(** C8.  The stores into [seed], in order, with the number of elements
    [seed] is declared with and whether the index is within it: the ten
    stores of the loop are, the store [seed[10] = '\0'] of line 18 is not. *)
Theorem seed_terminator_out_of_bounds e fuel :
  (11 <= fuel)%nat ->
  List.map (fun a => (acc_index a, acc_cap a, within a))
    (List.filter (written seed) (accesses (steps e fuel))) =
  [(0, Some 10%nat, true); (1, Some 10%nat, true); (2, Some 10%nat, true);
   (3, Some 10%nat, true); (4, Some 10%nat, true); (5, Some 10%nat, true);
   (6, Some 10%nat, true); (7, Some 10%nat, true); (8, Some 10%nat, true);
   (9, Some 10%nat, true); (10, Some 10%nat, false)].
Proof. intros H. rewrite (steps_fuel e fuel H). sym. reflexivity. Qed.

Lemma seed_terminator_out_of_bounds_witness :
  (11 <= 11)%nat /\
  List.map (fun a => (acc_index a, acc_cap a, within a))
    (List.filter (written seed) (accesses (steps calm 11))) =
  [(0, Some 10%nat, true); (1, Some 10%nat, true); (2, Some 10%nat, true);
   (3, Some 10%nat, true); (4, Some 10%nat, true); (5, Some 10%nat, true);
   (6, Some 10%nat, true); (7, Some 10%nat, true); (8, Some 10%nat, true);
   (9, Some 10%nat, true); (10, Some 10%nat, false)].
Proof. split; [lia | apply (seed_terminator_out_of_bounds calm 11); lia]. Defined.

(* ===================================================================== *)
(** ** The seed of the subscriber *)
(* ===================================================================== *)

(** C9.  [printf] on line 43 reports the contents of [sub_seed_a]; [sub_new]
    on line 44 is given the string literal ["sub_seed_a"], the name of the
    variable, not its contents. *)
Theorem sub_new_given_the_variable_name e fuel :
  (11 <= fuel)%nat ->
  reported_then_given (steps e fuel) =
  [([Some "SUBSCRIBERA9SEED"], Some "sub_seed_a")].
Proof. intros H. rewrite (steps_fuel e fuel H). sym. reflexivity. Qed.

Lemma sub_new_given_the_variable_name_witness :
  (11 <= 11)%nat /\
  reported_then_given (steps calm 11) =
  [([Some "SUBSCRIBERA9SEED"], Some "sub_seed_a")].
Proof. split; [lia | apply (sub_new_given_the_variable_name calm 11); lia]. Defined.

(* ===================================================================== *)
(** ** Properties kept along an execution *)
(* ===================================================================== *)

Section Invariant.
Variable e : env.
Variable I : list fn -> world -> Prop.
Variable G : list fn -> step -> Prop.
Variable ok : list fn -> fn -> bool.

Hypothesis preserve : forall h X (c : call X) w,
  ok h (fn_of c) = true -> I h w ->
  I (h ++ [fn_of c]) (handle e c w).2 /\
  G h {| before := w; ev := Ev c (handle e c w).1; after := (handle e c w).2 |}.

(** If [ok] accepts the calls of an execution, what [I] says of the first
    world is kept, and [G] holds of every step. *)
Lemma exec_guaranteed A (p : prog A) : forall h w,
  I h w ->
  checked ok h (List.map called (trace_of e p w)) = true ->
  guaranteed G h (trace_of e p w).
Proof.
  unfold trace_of. induction p as [a|X c k IH|]; intros h w Hw Hok; simpl in *.
  - exact Logic.I.
  - apply andb_prop in Hok as [Hc Hrest].
    destruct (preserve h X c w Hc Hw) as [Hw' Hg].
    split; [exact Hg|]. apply IH; assumption.
  - exact Logic.I.
Qed.

End Invariant.

Lemma guaranteed_Forall (P : step -> Prop) tr : forall h,
  guaranteed (fun _ => P) h tr -> Forall P tr.
Proof.
  induction tr as [|st tr IH]; intros h H; simpl in *.
  - constructor.
  - destruct H as [H1 H2]. constructor; [exact H1 | exact (IH _ H2)].
Qed.

(** The calls of an execution of [main], in order. *)
Lemma main_calls e :
  List.map called (steps e 11) =
  [F_decl; F_decl; F_time; F_srand;
   F_rand; F_load; F_store; F_rand; F_load; F_store; F_rand; F_load; F_store;
   F_rand; F_load; F_store; F_rand; F_load; F_store; F_rand; F_load; F_store;
   F_rand; F_load; F_store; F_rand; F_load; F_store; F_rand; F_load; F_store;
   F_rand; F_load; F_store; F_store;
   F_decl; F_printf; F_auth_new; F_printf; F_auth_channel_address;
   F_get_appinst_str; F_printf; F_printf; F_auth_announce; F_printf; F_printf;
   F_get_transaction; F_printf; F_decl; F_printf; F_sub_new; F_printf;
   F_printf; F_sub_unwrap_announce; F_printf; F_sub_subscribe; F_printf;
   F_get_transaction; F_printf; F_auth_unwrap_subscribe; F_printf].
Proof. sym. reflexivity. Qed.

(* ===================================================================== *)
(** ** The subscriber never reaches [Active] *)
(* ===================================================================== *)

(** Of the subscriber operations, only [unwrap_keyload] makes a subscriber
    [Active]. *)
Lemma unwrap_announcement_not_active su m :
  s_state su <> SubscriberState.Active ->
  s_state (unwrap_announcement su m).2 <> SubscriberState.Active.
Proof.
  intros H. unfold unwrap_announcement.
  repeat case_match; simpl; try assumption; congruence.
Qed.

Lemma subscribe_not_active up l su a :
  s_state su <> SubscriberState.Active ->
  s_state (subscribe up l su a).1.2 <> SubscriberState.Active.
Proof.
  intros H. unfold subscribe.
  repeat case_match; simpl; try assumption; congruence.
Qed.

Lemma unwrap_tagged_state su m : s_state (unwrap_tagged su m).2 = s_state su.
Proof. unfold unwrap_tagged. repeat case_match; simpl; congruence. Qed.

Lemma Forall_insert_lookup {A} (P : A -> Prop) (l : list A) i x y :
  Forall P l -> l !! i = Some x -> (P x -> P y) -> Forall P (<[i := y]> l).
Proof.
  intros Hl Hi Hxy. apply Forall_insert; [exact Hl|].
  apply Hxy. exact (proj1 (Forall_lookup P l) Hl i x Hi).
Qed.

Lemma subscriber_at_lookup L s su :
  subscriber_at L s = Ok su -> exists i, s = Some i /\ subscribers L !! i = Some su.
Proof.
  unfold subscriber_at. destruct s as [i|]; [|discriminate].
  destruct (subscribers L !! i) as [x|] eqn:E; [|discriminate].
  intros [= <-]. eauto.
Qed.

Lemma author_at_lookup L a au :
  author_at L a = Ok au -> exists i, a = Some i /\ authors L !! i = Some au.
Proof.
  unfold author_at. destruct a as [i|]; [|discriminate].
  destruct (authors L !! i) as [x|] eqn:E; [|discriminate].
  intros [= <-]. eauto.
Qed.

(** A call other than [sub_unwrap_keyload] leaves no subscriber [Active]
    if there was none. *)
Lemma handle_no_active e X (c : call X) w :
  no_keyload [] (fn_of c) = true -> no_active w -> no_active (handle e c w).2.
Proof.
  unfold no_active. intros Hok Hw.
  destruct c; try discriminate Hok; try exact Hw; cbn [handle with_lib snd lib];
    try (unfold Api.auth_new, Api.auth_channel_address, Api.get_appinst_str,
           Api.auth_announce, Api.auth_unwrap_subscribe,
           Api.auth_share_keyload_for_everyone, Api.auth_tag_packet,
           author_published, author_updated;
         repeat case_match; exact Hw).
  - unfold Api.sub_new. repeat case_match; try exact Hw.
    cbn. apply Forall_app. split; [exact Hw|].
    repeat constructor. cbn. discriminate.
  - unfold Api.sub_unwrap_announce.
    destruct s as [i|]; [|exact Hw].
    destruct (subscriber_at (lib w) (Some i)) as [su|] eqn:E; [|exact Hw].
    destruct m as [msg|]; [|exact Hw].
    apply subscriber_at_lookup in E as (j & [= <-] & Hj). cbn.
    eapply Forall_insert_lookup; [exact Hw | exact Hj |].
    apply unwrap_announcement_not_active.
  - unfold Api.sub_subscribe.
    destruct s as [i|]; [|exact Hw].
    destruct (subscriber_at (lib w) (Some i)) as [su|] eqn:E; [|exact Hw].
    destruct link as [a|]; [|exact Hw].
    apply subscriber_at_lookup in E as (j & [= <-] & Hj). cbn.
    eapply Forall_insert_lookup; [exact Hw | exact Hj |].
    apply subscribe_not_active.
  - unfold Api.sub_unwrap_tagged_packet.
    destruct s as [i|]; [|exact Hw].
    destruct (subscriber_at (lib w) (Some i)) as [su|] eqn:E; [|exact Hw].
    destruct m as [msg|]; [|exact Hw].
    apply subscriber_at_lookup in E as (j & [= <-] & Hj). cbn.
    eapply Forall_insert_lookup; [exact Hw | exact Hj |].
    rewrite unwrap_tagged_state. tauto.
Qed.

(** At every point of an execution no subscriber is [Active]. *)
Lemma no_subscriber_active e :
  Forall (fun st => no_active (before st) /\ no_active (after st)) (steps e 11).
Proof.
  apply (guaranteed_Forall _ _ []).
  apply (exec_guaranteed e (fun _ => no_active) _ no_keyload).
  - intros h X c w Hok Hw. cbn. split; [|split]; try exact Hw.
    + apply handle_no_active; [destruct c; exact Hok | exact Hw].
    + apply handle_no_active; [destruct c; exact Hok | exact Hw].
  - constructor.
  - change (trace_of e (main 11) (start e)) with (steps e 11).
    rewrite main_calls. reflexivity.
Qed.

(** C3.  In every execution of [main] the subscriber unwraps the
    announcement (one call of [sub_unwrap_announce]), no keyload is ever
    applied to it (no call of [sub_unwrap_keyload]), and at every point of
    the execution, before and after every step, no subscriber is in state
    [Active]. *)
Theorem subscriber_never_active e fuel :
  (11 <= fuel)%nat ->
  length (at_call F_sub_unwrap_announce (steps e fuel)) = 1%nat /\
  at_call F_sub_unwrap_keyload (steps e fuel) = [] /\
  Forall (fun st => no_active (before st) /\ no_active (after st)) (steps e fuel).
Proof.
  intros H. rewrite (steps_fuel e fuel H).
  split; [sym; reflexivity|]. split; [sym; reflexivity|].
  apply no_subscriber_active.
Qed.

Lemma subscriber_never_active_witness :
  (11 <= 11)%nat /\
  length (at_call F_sub_unwrap_announce (steps calm 11)) = 1%nat /\
  at_call F_sub_unwrap_keyload (steps calm 11) = [] /\
  Forall (fun st => no_active (before st) /\ no_active (after st)) (steps calm 11).
Proof. split; [lia | apply (subscriber_never_active calm 11); lia]. Defined.

(* ===================================================================== *)
(** ** How far [main] goes in the end-to-end scenario *)
(* ===================================================================== *)

(** The protocol model does run the scenario of section 8 to its end. *)
Example end_to_end_runs_scenario :
  runs_scenario (trace_of calm end_to_end (start calm)) = true.
Proof. vm_compute. reflexivity. Qed.

(** C1, as stated, fails: an execution of [main] that does not go through
    the scenario. *)
Lemma main_stops_short_of_the_scenario : runs_scenario (steps calm 11) = false.
Proof. vm_compute. reflexivity. Qed.

(** C1, amended.  [main] runs the first part of the scenario only: the
    author announces, the subscriber unwraps the announcement and
    subscribes, the author unwraps the subscription.  These ten library
    calls are all it makes: no keyload is issued or unwrapped, no tagged
    packet is published or decrypted; no subscriber is [Active] after any
    step; and no execution goes through the scenario. *)
Theorem main_runs_the_scenario_up_to_the_subscription e fuel :
  (11 <= fuel)%nat ->
  library_calls (steps e fuel) =
  [F_auth_new; F_auth_channel_address; F_get_appinst_str; F_auth_announce;
   F_get_transaction; F_sub_new; F_sub_unwrap_announce; F_sub_subscribe;
   F_get_transaction; F_auth_unwrap_subscribe]
  /\ Forall (fun st => no_active (after st)) (steps e fuel)
  /\ runs_scenario (steps e fuel) = false.
Proof.
  intros H. rewrite (steps_fuel e fuel H). split; [|split].
  - apply main_library_calls.
  - eapply Forall_impl; [apply no_subscriber_active|]. intros st [_ Ha]. exact Ha.
  - sym. reflexivity.
Qed.

Lemma main_runs_the_scenario_up_to_the_subscription_witness :
  (11 <= 11)%nat /\
  library_calls (steps calm 11) =
  [F_auth_new; F_auth_channel_address; F_get_appinst_str; F_auth_announce;
   F_get_transaction; F_sub_new; F_sub_unwrap_announce; F_sub_subscribe;
   F_get_transaction; F_auth_unwrap_subscribe]
  /\ Forall (fun st => no_active (after st)) (steps calm 11)
  /\ runs_scenario (steps calm 11) = false.
Proof.
  split; [lia | apply (main_runs_the_scenario_up_to_the_subscription calm 11); lia].
Defined.

(* ===================================================================== *)
(** ** [auth_announce] is called once *)
(* ===================================================================== *)

(** The errors the operations can answer. *)
Lemma derive_error acc s en x : derive acc s en = Err x -> x = Protocol InvalidSeed.
Proof. unfold derive. case_match; congruence. Qed.

Lemma post_error up l m x :
  post up l m = Err x -> x = TransportError \/ x = Protocol AddressCollision.
Proof. unfold post. repeat case_match; intros; simplify_eq; auto. Qed.

Lemma record_error t m x :
  record t m = Err x -> x = Protocol UnknownChannel \/ x = Protocol OutOfOrder.
Proof. unfold record. repeat case_match; intros; simplify_eq; auto. Qed.

Lemma announce_created up l a :
  a_state a = AuthorState.Created ->
  error_of (announce up l a).1.1 <> Some (Protocol AlreadyAnnounced).
Proof.
  intros H. unfold announce.
  rewrite bool_decide_eq_true_2 by exact H. cbn.
  destruct (post _ _ _) as [l'|x] eqn:E; cbn; [congruence|].
  apply post_error in E as [-> | ->]; congruence.
Qed.

Lemma accept_subscription_state a m :
  a_state (accept_subscription a m).2 = a_state a.
Proof. unfold accept_subscription. repeat case_match; reflexivity. Qed.

Lemma accept_subscription_error a m :
  error_of (accept_subscription a m).1 <> Some (Protocol AlreadyAnnounced).
Proof.
  unfold accept_subscription. 
  repeat case_match; cbn; try congruence.
  match goal with H : record _ _ = Err _ |- _ => apply record_error in H as [-> | ->] end; congruence.
Qed.

Lemma unwrap_announcement_error s m :
  error_of (unwrap_announcement s m).1 <> Some (Protocol AlreadyAnnounced).
Proof. unfold unwrap_announcement. repeat case_match; cbn; congruence. Qed.

Lemma subscribe_error up l s a :
  error_of (subscribe up l s a).1.1 <> Some (Protocol AlreadyAnnounced).
Proof.
  unfold subscribe. repeat case_match; cbn; try congruence;
  match goal with H : post _ _ _ = Err _ |- _ => apply post_error in H as [-> | ->] end; congruence.
Qed.

Lemma unwrap_keyload_error s m :
  error_of (unwrap_keyload s m).1 <> Some (Protocol AlreadyAnnounced).
Proof.
  unfold unwrap_keyload, apply_keyload. repeat case_match; simplify_eq; cbn; try congruence;
  match goal with H : record _ _ = Err _ |- _ => apply record_error in H as [-> | ->] end; congruence.
Qed.

Lemma unwrap_tagged_error s m :
  error_of (unwrap_tagged s m).1 <> Some (Protocol AlreadyAnnounced).
Proof.
  unfold unwrap_tagged, Decrypt. repeat case_match; simplify_eq; cbn; try congruence;
  match goal with H : record _ _ = Err _ |- _ => apply record_error in H as [-> | ->] end; congruence.
Qed.

Lemma fetch_error how l a : error_of (fetch how l a) <> Some (Protocol AlreadyAnnounced).
Proof. unfold fetch. repeat case_match; cbn; congruence. Qed.

Lemma handle_not_already_announced e h X (c : call X) w :
  announce_once h (fn_of c) = true -> not_yet_announced h w ->
  failure {| before := w; ev := Ev c (handle e c w).1; after := (handle e c w).2 |} <> Some (Protocol AlreadyAnnounced).
Proof.
  intros Hok HI. unfold failure, api_event, called. cbn [ev after].
  destruct c; cbn [fn_of library_call]; try congruence; try discriminate Hok;
    cbn [handle with_lib snd lib].
  - unfold Api.auth_new. repeat case_match; cbn; try congruence.
    match goal with H : derive _ _ _ = Err _ |- _ => apply derive_error in H as -> end. congruence.
  - unfold Api.auth_channel_address. repeat case_match; cbn; try congruence.
    match goal with H : author_at _ _ = Err _ |- _ => unfold author_at in H; repeat case_match; simplify_eq end; congruence.
  - unfold Api.get_appinst_str. repeat case_match; cbn; congruence.
  - cbn in Hok. apply negb_true_iff, bool_decide_eq_false in Hok.
    destruct HI as [HI|HI]; [contradiction|].
    unfold Api.auth_announce.
    destruct a as [i|]; [|cbn; congruence].
    destruct (author_at (lib w) (Some i)) as [au|] eqn:E; [|cbn; congruence].
    apply author_at_lookup in E as (j & [= <-] & Hj). cbn.
    apply announce_created.
    exact (proj1 (Forall_lookup _ _) HI _ _ Hj).
  - unfold Api.get_transaction. cbn. destruct link as [a|]; cbn; [apply fetch_error | congruence].
  - unfold Api.sub_new. repeat case_match; cbn; try congruence.
    match goal with H : derive _ _ _ = Err _ |- _ => apply derive_error in H as -> end. congruence.
  - unfold Api.sub_unwrap_announce. repeat case_match; cbn; try congruence.
    apply unwrap_announcement_error.
  - unfold Api.sub_subscribe. repeat case_match; cbn; try congruence.
    apply subscribe_error.
  - unfold Api.auth_unwrap_subscribe. repeat case_match; cbn; try congruence.
    apply accept_subscription_error.
  - unfold Api.sub_unwrap_keyload. repeat case_match; cbn; try congruence.
    apply unwrap_keyload_error.
  - unfold Api.sub_unwrap_tagged_packet. repeat case_match; cbn; try congruence.
    apply unwrap_tagged_error.
Qed.

Lemma handle_not_yet_announced e h X (c : call X) w :
  announce_once h (fn_of c) = true -> not_yet_announced h w ->
  not_yet_announced (h ++ [fn_of c]) (handle e c w).2.
Proof.
  intros Hok [HI|HI]; [left; apply elem_of_app; left; exact HI|].
  destruct (decide (fn_of c = F_auth_announce)) as [Heq|Hne].
  { left. apply elem_of_app. right. rewrite Heq. apply list_elem_of_singleton. reflexivity. }
  right. unfold all_created in *.
  destruct c; try (exfalso; apply Hne; reflexivity); try discriminate Hok;
    try exact HI; cbn [handle with_lib snd lib];
    try (unfold Api.auth_channel_address, Api.get_appinst_str, Api.sub_new,
           Api.sub_unwrap_announce, Api.sub_subscribe, Api.sub_unwrap_keyload,
           Api.sub_unwrap_tagged_packet, subscriber_published, subscriber_updated;
         repeat case_match; exact HI).
  - unfold Api.auth_new. repeat case_match; try exact HI.
    cbn. apply Forall_app. split; [exact HI|]. repeat constructor.
  - unfold Api.auth_unwrap_subscribe.
    destruct a as [i|]; [|exact HI].
    destruct (author_at (lib w) (Some i)) as [au|] eqn:E; [|exact HI].
    destruct m as [msg|]; [|exact HI].
    apply author_at_lookup in E as (j & [= <-] & Hj). cbn.
    eapply Forall_insert_lookup; [exact HI | exact Hj |].
    rewrite accept_subscription_state. tauto.
Qed.

(** C5.  In every execution of [main] there is one author (one call of
    [auth_new]), [auth_announce] is called exactly once, and no step of the
    execution fails with [AlreadyAnnounced]. *)
Theorem announced_exactly_once e fuel :
  (11 <= fuel)%nat ->
  length (at_call F_auth_new (steps e fuel)) = 1%nat /\
  length (at_call F_auth_announce (steps e fuel)) = 1%nat /\
  Forall (fun st => failure st <> Some (Protocol AlreadyAnnounced)) (steps e fuel).
Proof.
  intros H. rewrite (steps_fuel e fuel H).
  split; [sym; reflexivity|]. split; [sym; reflexivity|].
  apply (guaranteed_Forall _ _ []).
  apply (exec_guaranteed e not_yet_announced _ announce_once).
  - intros h X c w Hok Hw. split.
    + apply handle_not_yet_announced; assumption.
    + eapply handle_not_already_announced; eassumption.
  - right. constructor.
  - change (trace_of e (main 11) (start e)) with (steps e 11).
    rewrite main_calls. vm_compute. reflexivity.
Qed.

Lemma announced_exactly_once_witness :
  (11 <= 11)%nat /\
  length (at_call F_auth_new (steps calm 11)) = 1%nat /\
  length (at_call F_auth_announce (steps calm 11)) = 1%nat /\
  Forall (fun st => failure st <> Some (Protocol AlreadyAnnounced)) (steps calm 11).
Proof. split; [lia | apply (announced_exactly_once calm 11); lia]. Defined.

(* ===================================================================== *)
(** ** The library calls of [main] and what flows between them *)
(* ===================================================================== *)

Lemma library_events_app t1 t2 :
  library_events (t1 ++ t2) = library_events t1 ++ library_events t2.
Proof. unfold library_events. rewrite List.filter_app, List.map_app. reflexivity. Qed.

Lemma at_call_app f t1 t2 : at_call f (t1 ++ t2) = at_call f t1 ++ at_call f t2.
Proof. unfold at_call. apply List.filter_app. Qed.

(** The library calls of an execution with their arguments and answers, and
    how the two steps around line 50 are linked. *)
Lemma session_steps e :
  exists auth appinst appinst_str ann_link ann_packet subA sub_link sub_packet u s,
    library_events (steps e 11) =
      [Ev (c_auth_new (Ptr seed) (Ptr encoding) 1024 true) auth;
       Ev (c_auth_channel_address auth) appinst;
       Ev (c_get_appinst_str appinst) appinst_str;
       Ev (c_auth_announce auth) ann_link;
       Ev (c_get_transaction ann_link) ann_packet;
       Ev (c_sub_new (Lit "sub_seed_a") (Ptr encoding) 1024) subA;
       Ev (c_sub_unwrap_announce subA ann_packet) tt;
       Ev (c_sub_subscribe subA ann_link) sub_link;
       Ev (c_get_transaction sub_link) sub_packet;
       Ev (c_auth_unwrap_subscribe auth sub_packet) tt] /\
    at_call F_sub_unwrap_announce (steps e 11) = [u] /\
    at_call F_sub_subscribe (steps e 11) = [s] /\
    ev u = Ev (c_sub_unwrap_announce subA ann_packet) tt /\
    ev s = Ev (c_sub_subscribe subA ann_link) sub_link /\
    lib (after u) = (Api.sub_unwrap_announce subA ann_packet (lib (before u))).2 /\
    lib (before s) = lib (after u) /\
    lib (after s) =
      (Api.sub_subscribe (post_up e (posts (lib (before s)))) subA ann_link
         (lib (before s))).2.
Proof.
  rewrite steps_split.
  rewrite library_events_app, !at_call_app.
  assert (H1 : library_events (trace_of e (seed_generation 11) (start e)) = [])
    by (sym; reflexivity).
  assert (H2 : at_call F_sub_unwrap_announce (trace_of e (seed_generation 11) (start e)) = [])
    by (sym; reflexivity).
  assert (H3 : at_call F_sub_subscribe (trace_of e (seed_generation 11) (start e)) = [])
    by (sym; reflexivity).
  rewrite H1, H2, H3. clear H1 H2 H3. cbn [app].
  generalize (seeded e). intros w0.
  match goal with
  | |- ?G =>
      match eval pattern (trace_of e (session true) w0) in G with
      | ?Q _ => set (goal := Q); change (goal (trace_of e (session true) w0))
      end
  end.
  let p := eval lazy in (session true) in change (session true) with p.
  do 26 step.
  rewrite trace_of_ret.
  subst goal. cbv beta.
  repeat match goal with r : unit * world |- _ => destruct r as [[] ?] end.
  cbn [fst snd] in *.
  do 10 eexists.
  split; [lazy; reflexivity|].
  split; [lazy; reflexivity|].
  split; [lazy; reflexivity|].
  cbn [before after ev].
  split; [reflexivity|]. split; [reflexivity|].
  split; [|split].
  - match goal with
    | H : _ = handle e (c_sub_unwrap_announce ?s ?m) ?w |- _ =>
        transitivity (lib (handle e (c_sub_unwrap_announce s m) w).2);
        [rewrite <- H|]; reflexivity
    end.
  - match goal with
    | H : (_, ?w') = handle e (c_printf ?f ?a) ?w |- lib ?w' = _ =>
        transitivity (lib (handle e (c_printf f a) w).2);
        [rewrite <- H|]; reflexivity
    end.
  - match goal with
    | H : ?r = handle e (c_sub_subscribe _ _) _ |- _ => rewrite H; reflexivity
    end.
Qed.

(** A subscriber whose [unwrap_announcement] succeeded is at least
    [AnnouncementKnown]. *)
Lemma unwrap_announcement_known su m :
  error_of (unwrap_announcement su m).1 = None ->
  announcement_known (unwrap_announcement su m).2.
Proof.
  unfold unwrap_announcement, announcement_known.
  repeat case_match; cbn; try discriminate; intros _; split; congruence.
Qed.

(** [subscribe] answers [AnnouncementUnknown] to a subscriber in state
    [Created] only. *)
Lemma subscribe_known up l su a :
  announcement_known su ->
  error_of (subscribe up l su a).1.1 <> Some (Protocol AnnouncementUnknown).
Proof.
  intros [Hs Hc]. unfold subscribe.
  repeat case_match; cbn; try congruence;
    match goal with
    | H : post _ _ _ = Err _ |- _ => apply post_error in H as [-> | ->]
    end; congruence.
Qed.

Lemma sub_unwrap_announce_known s m L :
  status (Api.sub_unwrap_announce s m L).2 = None ->
  exists i su, s = Some i /\
    subscribers (Api.sub_unwrap_announce s m L).2 !! i = Some su /\
    announcement_known su.
Proof.
  unfold Api.sub_unwrap_announce.
  destruct s as [i|]; [|discriminate].
  destruct (subscriber_at L (Some i)) as [su|] eqn:E; [|discriminate].
  destruct m as [msg|]; [|discriminate].
  apply subscriber_at_lookup in E as (j & [= <-] & Hj). cbn. intros Hok.
  exists i, (unwrap_announcement su msg).2. split; [reflexivity|]. split.
  - apply list_lookup_insert_eq. apply lookup_lt_is_Some. eauto.
  - apply unwrap_announcement_known. exact Hok.
Qed.

Lemma sub_subscribe_known up i su link L :
  subscribers L !! i = Some su -> announcement_known su ->
  status (Api.sub_subscribe up (Some i) link L).2
    <> Some (Protocol AnnouncementUnknown).
Proof.
  intros Hi Hk. unfold Api.sub_subscribe, subscriber_at. rewrite Hi.
  destruct link as [a|]; cbn; [|congruence].
  apply subscribe_known. exact Hk.
Qed.

(* ===================================================================== *)
(** ** The order of the calls and the precondition of [subscribe] *)
(* ===================================================================== *)

(** C2, as stated, fails: on a ledger where the announcement is not yet
    available when [main] fetches it, [sub_unwrap_announce] is handed a null
    packet, the subscriber stays [Created], and [sub_subscribe] fails with
    [AnnouncementUnknown]. *)
Lemma subscribe_fails_after_a_late_fetch :
  ~ subscribe_precondition_holds (steps late 11).
Proof.
  apply (bool_decide_eq_false_1 (subscribe_precondition_holds (steps late 11))).
  vm_compute. reflexivity.
Qed.

(** C2, amended.  In every execution of [main] the library calls occur in
    the order of the control flow, each on what the earlier ones answered:
    the author is created, its channel address derived, the announcement
    published, then fetched and unwrapped by the subscriber, the
    subscription published, then fetched and unwrapped by the author.
    [sub_subscribe] is called once, on the subscriber that
    [sub_unwrap_announce] was called on before it; and whenever that call of
    [sub_unwrap_announce] succeeded, the subscriber is at least
    [AnnouncementKnown] when [sub_subscribe] is called and the call does not
    fail with [AnnouncementUnknown]. *)
Theorem subscribe_follows_unwrap e fuel :
  (11 <= fuel)%nat ->
  exists auth appinst appinst_str ann_link ann_packet subA sub_link sub_packet u s,
    library_events (steps e fuel) =
      [Ev (c_auth_new (Ptr seed) (Ptr encoding) 1024 true) auth;
       Ev (c_auth_channel_address auth) appinst;
       Ev (c_get_appinst_str appinst) appinst_str;
       Ev (c_auth_announce auth) ann_link;
       Ev (c_get_transaction ann_link) ann_packet;
       Ev (c_sub_new (Lit "sub_seed_a") (Ptr encoding) 1024) subA;
       Ev (c_sub_unwrap_announce subA ann_packet) tt;
       Ev (c_sub_subscribe subA ann_link) sub_link;
       Ev (c_get_transaction sub_link) sub_packet;
       Ev (c_auth_unwrap_subscribe auth sub_packet) tt] /\
    at_call F_sub_unwrap_announce (steps e fuel) = [u] /\
    at_call F_sub_subscribe (steps e fuel) = [s] /\
    ev u = Ev (c_sub_unwrap_announce subA ann_packet) tt /\
    ev s = Ev (c_sub_subscribe subA ann_link) sub_link /\
    (failure u = None ->
     (exists i su, subA = Some i /\
        subscribers (lib (before s)) !! i = Some su /\ announcement_known su) /\
     failure s <> Some (Protocol AnnouncementUnknown)).
Proof.
  intros H. rewrite (steps_fuel e fuel H).
  destruct (session_steps e)
    as (auth & appinst & appinst_str & ann_link & ann_packet & subA & sub_link
        & sub_packet & u & s & Hev & Hu & Hs & Heu & Hes & Hau & Hbs & Has).
  exists auth, appinst, appinst_str, ann_link, ann_packet, subA, sub_link,
    sub_packet, u, s.
  split; [exact Hev|].
  split; [exact Hu|]. split; [exact Hs|]. split; [exact Heu|]. split; [exact Hes|].
  unfold failure, api_event, called. rewrite Heu, Hes. cbn [fn_of library_call].
  rewrite Has, Hbs, Hau. intros Hok.
  destruct (sub_unwrap_announce_known _ _ _ Hok) as (i & su & -> & Hi & Hk).
  split.
  - exists i, su. auto.
  - eapply sub_subscribe_known; eassumption.
Qed.

Lemma subscribe_follows_unwrap_witness :
  (11 <= 11)%nat /\
  exists auth appinst appinst_str ann_link ann_packet subA sub_link sub_packet u s,
    library_events (steps calm 11) =
      [Ev (c_auth_new (Ptr seed) (Ptr encoding) 1024 true) auth;
       Ev (c_auth_channel_address auth) appinst;
       Ev (c_get_appinst_str appinst) appinst_str;
       Ev (c_auth_announce auth) ann_link;
       Ev (c_get_transaction ann_link) ann_packet;
       Ev (c_sub_new (Lit "sub_seed_a") (Ptr encoding) 1024) subA;
       Ev (c_sub_unwrap_announce subA ann_packet) tt;
       Ev (c_sub_subscribe subA ann_link) sub_link;
       Ev (c_get_transaction sub_link) sub_packet;
       Ev (c_auth_unwrap_subscribe auth sub_packet) tt] /\
    at_call F_sub_unwrap_announce (steps calm 11) = [u] /\
    at_call F_sub_subscribe (steps calm 11) = [s] /\
    ev u = Ev (c_sub_unwrap_announce subA ann_packet) tt /\
    ev s = Ev (c_sub_subscribe subA ann_link) sub_link /\
    (failure u = None ->
     (exists i su, subA = Some i /\
        subscribers (lib (before s)) !! i = Some su /\ announcement_known su) /\
     failure s <> Some (Protocol AnnouncementUnknown)).
Proof. split; [lia | apply (subscribe_follows_unwrap calm 11); lia]. Defined.

(* ===================================================================== *)
(** ** Fetching from the ledger *)
(* ===================================================================== *)

(** C6, as stated, fails: the first fetch finds nothing, and the next
    library call is not another fetch. *)
Lemma main_does_not_retry_a_fetch : fetches_retried (steps late 11) = false.
Proof. vm_compute. reflexivity. Qed.

(** C6, amended.  In every execution of [main] each of the two links is
    fetched exactly once, without retry or backoff, and what the fetch
    answers, an envelope or the null pointer of a fetch that found nothing,
    is handed as it is to the unwrap call that follows. *)
Theorem each_link_fetched_once e fuel :
  (11 <= fuel)%nat ->
  length (at_call F_get_transaction (steps e fuel)) = 2%nat /\
  exists auth subA ann_link ann_packet sub_link sub_packet,
    List.filter fetch_or_unwrap (library_events (steps e fuel)) =
    [Ev (c_get_transaction ann_link) ann_packet;
     Ev (c_sub_unwrap_announce subA ann_packet) tt;
     Ev (c_get_transaction sub_link) sub_packet;
     Ev (c_auth_unwrap_subscribe auth sub_packet) tt].
Proof.
  intros H. rewrite (steps_fuel e fuel H).
  split; [sym; reflexivity|].
  destruct (session_steps e)
    as (auth & appinst & appinst_str & ann_link & ann_packet & subA & sub_link
        & sub_packet & u & s & Hev & _).
  exists auth, subA, ann_link, ann_packet, sub_link, sub_packet.
  rewrite Hev. reflexivity.
Qed.

Lemma each_link_fetched_once_witness :
  (11 <= 11)%nat /\
  length (at_call F_get_transaction (steps late 11)) = 2%nat /\
  exists auth subA ann_link ann_packet sub_link sub_packet,
    List.filter fetch_or_unwrap (library_events (steps late 11)) =
    [Ev (c_get_transaction ann_link) ann_packet;
     Ev (c_sub_unwrap_announce subA ann_packet) tt;
     Ev (c_get_transaction sub_link) sub_packet;
     Ev (c_auth_unwrap_subscribe auth sub_packet) tt].
Proof. split; [lia | apply (each_link_fetched_once late 11); lia]. Defined.

(* ===================================================================== *)
(** ** The characters of the seed *)
(* ===================================================================== *)

Lemma initialised_charset :
  initialised 28 charset_init = list_ascii_of_string charset_init ++ [NUL].
Proof. reflexivity. Qed.

Lemma rem_27_bound r : 0 <= r -> 0 <= Z.rem r 27 < 27.
Proof. intros H. apply Z.rem_bound_pos; lia. Qed.

(** With [rand()] in its range, the loop picks characters of [charset]. *)
Lemma pick_tryte e k : rand_in_range e -> tryte (pick e k).
Proof.
  intros Hr. unfold pick, charset_bytes, load_byte.
  destruct (rem_27_bound _ (proj1 (Hr (to_uint (now e)) k))) as [H0 H27].
  rewrite (proj2 (Z.leb_le _ _) H0).
  rewrite initialised_charset, <- app_assoc.
  assert (Hlen : (Z.to_nat (Z.rem (rand_out e (to_uint (now e)) k) 27)
                  < length (list_ascii_of_string charset_init))%nat).
  { change (length (list_ascii_of_string charset_init)) with 27%nat. lia. }
  rewrite lookup_app_l by exact Hlen.
  destruct (lookup_lt_is_Some_2 _ _ Hlen) as [c Hc].
  rewrite Hc. cbn. exact (list_elem_of_lookup_2 _ _ _ Hc).
Qed.

Lemma tryte_not_NUL c : tryte c -> c <> NUL.
Proof.
  intros H ->. revert H. unfold tryte.
  apply (bool_decide_eq_false_1 (NUL ∈ list_ascii_of_string charset_init)).
  vm_compute. reflexivity.
Qed.

Lemma c_string_until_NUL l r :
  Forall (fun c => c <> NUL) l ->
  c_string (l ++ <[0%nat := NUL]> r) = string_of_list_ascii l.
Proof.
  induction 1 as [|c l Hc Hl IH]; simpl.
  - destruct r as [|x r]; simpl; [reflexivity|].
    destruct (decide (NUL = NUL)); [reflexivity|congruence].
  - destruct (decide (c = NUL)); [contradiction|]. rewrite IH. reflexivity.
Qed.


(* ===================================================================== *)
(** ** What [main] does whatever it is answered *)
(* ===================================================================== *)

(** An execution in an environment is a run: its answers are some answers. *)
Lemma exec_run_of {A} e (p : prog A) : forall w a w',
  result_of e p w = Some (a, w') ->
  run_of p (List.map ev (trace_of e p w)) a.
Proof.
  unfold result_of, trace_of.
  induction p as [x|X c k IH|]; intros w a w' H; simpl in *.
  - split; [reflexivity | congruence].
  - eexists _, _. split; [reflexivity|]. eapply IH, H.
  - discriminate H.
Defined.

Lemma steps_run_of e fuel code :
  exit_code e fuel = Some code ->
  run_of (main fuel) (List.map ev (steps e fuel)) code.
Proof.
  unfold exit_code, steps, run. intros H.
  destruct (exec e (main fuel) (start e)).2 as [[a w']|] eqn:E;
    [|discriminate H].
  injection H as <-. exact (exec_run_of e _ _ _ _ E).
Defined.

Lemma calm_run_of : run_of (main 11) (List.map ev (steps calm 11)) 0.
Proof. apply steps_run_of. vm_compute. reflexivity. Defined.

Lemma main_fuel fuel : (11 <= fuel)%nat -> main fuel = main 11.
Proof.
  intros H. replace fuel with (11 + (fuel - 11))%nat by lia.
  unfold main. rewrite seed_generation_fuel. reflexivity.
Qed.

(** The next call of a run, its answer named [x]. *)
Ltac answer H x := hnf in H; destruct H as (x & ? & -> & H).
Ltac answered H := let x := fresh "x" in answer H x.
Ltac returned H := hnf in H; destruct H as [-> ->].

(** X1.  [main] tests no answer.  Whatever [time], [rand], the loads and
    the library calls answer, null pointers included, a run of [main] makes
    the same 36 function calls in the same order: [time], [srand], ten
    times [rand], then the fourteen [printf] and the ten library calls of
    lines 24 to 59 as they follow each other in the source; every [printf]
    has the format string of its line, the last one that of "Sub A
    subscribed!"; and [main] returns 0. *)
Theorem main_tests_no_answer fuel evs code :
  (11 <= fuel)%nat -> run_of (main fuel) evs code ->
  code = 0 /\
  List.map kind (List.filter function_call evs) =
    [F_time; F_srand] ++ replicate 10 F_rand ++
    [F_printf; F_auth_new; F_printf; F_auth_channel_address;
     F_get_appinst_str; F_printf; F_printf; F_auth_announce; F_printf;
     F_printf; F_get_transaction; F_printf; F_printf; F_sub_new; F_printf;
     F_printf; F_sub_unwrap_announce; F_printf; F_sub_subscribe; F_printf;
     F_get_transaction; F_printf; F_auth_unwrap_subscribe; F_printf] /\
  formats evs = messages.
Proof.
  intros Hf H. rewrite (main_fuel fuel Hf) in H.
  do 61 answered H. returned H.
  repeat split.
Qed.

Lemma main_tests_no_answer_witness :
  (11 <= 11)%nat /\ run_of (main 11) (List.map ev (steps calm 11)) 0 /\
  0 = 0 /\
  List.map kind (List.filter function_call (List.map ev (steps calm 11))) =
    [F_time; F_srand] ++ replicate 10 F_rand ++
    [F_printf; F_auth_new; F_printf; F_auth_channel_address;
     F_get_appinst_str; F_printf; F_printf; F_auth_announce; F_printf;
     F_printf; F_get_transaction; F_printf; F_printf; F_sub_new; F_printf;
     F_printf; F_sub_unwrap_announce; F_printf; F_sub_subscribe; F_printf;
     F_get_transaction; F_printf; F_auth_unwrap_subscribe; F_printf] /\
  formats (List.map ev (steps calm 11)) = messages.
Proof.
  split; [lia|]. split; [exact calm_run_of|].
  apply (main_tests_no_answer 11 _ 0); [lia | exact calm_run_of].
Defined.

(** X2.  How the seed is made, lines 13 to 18, whatever is answered: the
    clock is read once and the generator seeded once, with the clock value
    as an [unsigned], before the first [rand()]; then ten times [rand()] is
    called, [charset] is loaded at the answer modulo 27 and the character
    loaded is stored at the next index of [seed]; then NUL is stored at
    index 10.  Nothing else reads the clock, the generator or an array:
    the rest of [main] makes no array access. *)
Theorem seed_making_calls fuel evs code :
  (11 <= fuel)%nat -> run_of (main fuel) evs code ->
  exists t draws,
    length draws = 10%nat /\
    List.filter seed_making evs =
    Ev c_time t :: Ev (c_srand (to_uint t)) tt ::
    concat (imap iteration_events draws) ++ [Ev (c_store seed 10 NUL) tt].
Proof.
  intros Hf H. rewrite (main_fuel fuel Hf) in H.
  do 2 answered H. answer H t. answered H.
  do 10 (let r := fresh "r" in let c := fresh "c" in
         answer H r; answer H c; answered H).
  do 27 answered H. returned H.
  exists t, [(r, c); (r0, c0); (r1, c1); (r2, c2); (r3, c3); (r4, c4);
             (r5, c5); (r6, c6); (r7, c7); (r8, c8)].
  split; [reflexivity|].
  repeat match goal with u : unit |- _ => destruct u end.
  lazy -[Z.rem to_uint]. reflexivity.
Qed.

Lemma seed_making_calls_witness :
  (11 <= 11)%nat /\ run_of (main 11) (List.map ev (steps calm 11)) 0 /\
  exists t draws,
    length draws = 10%nat /\
    List.filter seed_making (List.map ev (steps calm 11)) =
    Ev c_time t :: Ev (c_srand (to_uint t)) tt ::
    concat (imap iteration_events draws) ++ [Ev (c_store seed 10 NUL) tt].
Proof.
  split; [lia|]. split; [exact calm_run_of|].
  apply (seed_making_calls 11 _ 0); [lia | exact calm_run_of].
Defined.

(** X3.  What flows between the library calls, whatever they answer: the
    author made by [auth_new] is the one that announces and that accepts
    the subscription; the link [auth_announce] answers is the one fetched
    and the one subscribed to; the subscriber made by [sub_new] is the one
    that unwraps and subscribes; each fetched packet goes to the unwrap
    call that follows; both identities get the same [encoding] array and
    the size 1024, the author the flag [true]. *)
Theorem session_data_flow fuel evs code :
  (11 <= fuel)%nat -> run_of (main fuel) evs code ->
  exists auth appinst appinst_str ann_link ann_packet subA sub_link sub_packet,
    List.filter (fun v => library_call (kind v)) evs =
    [Ev (c_auth_new (Ptr seed) (Ptr encoding) 1024 true) auth;
     Ev (c_auth_channel_address auth) appinst;
     Ev (c_get_appinst_str appinst) appinst_str;
     Ev (c_auth_announce auth) ann_link;
     Ev (c_get_transaction ann_link) ann_packet;
     Ev (c_sub_new (Lit "sub_seed_a") (Ptr encoding) 1024) subA;
     Ev (c_sub_unwrap_announce subA ann_packet) tt;
     Ev (c_sub_subscribe subA ann_link) sub_link;
     Ev (c_get_transaction sub_link) sub_packet;
     Ev (c_auth_unwrap_subscribe auth sub_packet) tt] /\
    List.filter (fun v => bool_decide (format_of v = Some "With AppInst: %s\n\n"))
      evs = [Ev (c_printf "With AppInst: %s\n\n" [appinst_str]) tt].
Proof.
  intros Hf H. rewrite (main_fuel fuel Hf) in H.
  do 37 answered H. answer H auth. answered H. answer H appinst.
  answer H str. do 2 answered H. answer H ann_link. do 2 answered H.
  answer H ann_packet. do 3 answered H. answer H subA. do 3 answered H.
  answered H. answer H sub_link. answered H. answer H sub_packet.
  do 3 answered H. returned H.
  exists auth, appinst, str, ann_link, ann_packet, subA, sub_link, sub_packet.
  repeat match goal with u : unit |- _ => destruct u end.
  split; reflexivity.
Qed.

Lemma session_data_flow_witness :
  (11 <= 11)%nat /\ run_of (main 11) (List.map ev (steps calm 11)) 0 /\
  exists auth appinst appinst_str ann_link ann_packet subA sub_link sub_packet,
    List.filter (fun v => library_call (kind v)) (List.map ev (steps calm 11)) =
    [Ev (c_auth_new (Ptr seed) (Ptr encoding) 1024 true) auth;
     Ev (c_auth_channel_address auth) appinst;
     Ev (c_get_appinst_str appinst) appinst_str;
     Ev (c_auth_announce auth) ann_link;
     Ev (c_get_transaction ann_link) ann_packet;
     Ev (c_sub_new (Lit "sub_seed_a") (Ptr encoding) 1024) subA;
     Ev (c_sub_unwrap_announce subA ann_packet) tt;
     Ev (c_sub_subscribe subA ann_link) sub_link;
     Ev (c_get_transaction sub_link) sub_packet;
     Ev (c_auth_unwrap_subscribe auth sub_packet) tt] /\
    List.filter (fun v => bool_decide (format_of v = Some "With AppInst: %s\n\n"))
      (List.map ev (steps calm 11)) =
    [Ev (c_printf "With AppInst: %s\n\n" [appinst_str]) tt].
Proof.
  split; [lia|]. split; [exact calm_run_of|].
  apply (session_data_flow 11 _ 0); [lia | exact calm_run_of].
Defined.

(* ===================================================================== *)
(** ** The seed [main] generates *)
(* ===================================================================== *)

(** The array accesses of an execution, in order. *)
Lemma main_accesses e :
  accesses (steps e 11) =
  concat (iteration e <$> seq 0 10) ++
  [{| acc_dir := Written; acc_var := seed; acc_index := 10;
      acc_cap := Some 10%nat |}].
Proof. sym. reflexivity. Qed.

(** With [rand()] in its range, the character picked is read in the
    literal, not in its terminator and not after the array. *)
Lemma pick_drawn e k : rand_in_range e -> pick e k = drawn e k.
Proof.
  intros Hr. unfold pick, drawn, charset_bytes, load_byte.
  destruct (rem_27_bound _ (proj1 (Hr (to_uint (now e)) k))) as [H0 H27].
  rewrite (proj2 (Z.leb_le _ _) H0).
  rewrite initialised_charset, <- app_assoc.
  rewrite lookup_app_l; [reflexivity|].
  change (length (list_ascii_of_string charset_init)) with 27%nat. lia.
Qed.

Lemma picks_drawn e :
  rand_in_range e -> pick e <$> seq 0 10 = drawn e <$> seq 0 10.
Proof. intros Hr. apply list_fmap_ext. intros i k _. apply pick_drawn, Hr. Qed.

Lemma picks_not_NUL e :
  rand_in_range e -> Forall (fun c => c <> NUL) (pick e <$> seq 0 10).
Proof.
  intros Hr. apply Forall_fmap, Forall_forall. intros k _.
  apply tryte_not_NUL, pick_tryte, Hr.
Qed.

(** With bytes of its own after [seed] (layout [Apart]), the NUL of line
    18 is still there when [auth_new] reads. *)
Lemma seed_read_by_auth_new e :
  rand_in_range e ->
  seeds_given F_auth_new (steps e 11) =
  [Some (string_of_list_ascii (drawn e <$> seq 0 10))].
Proof.
  intros Hr.
  rewrite <- (picks_drawn e Hr).
  rewrite <- (c_string_until_NUL _ (beyond e seed) (picks_not_NUL e Hr)).
  sym_strings. reflexivity.
Qed.

Lemma calm_rand_in_range : rand_in_range calm.
Proof.
  intros s n. cbn. unfold INT_MAX.
  pose proof (Z.mod_pos_bound (s + 7919 * Z.of_nat n) 32768). lia.
Defined.

Lemma wrapped_rand_in_range : rand_in_range wrapped.
Proof.
  intros s n. cbn. unfold INT_MAX.
  pose proof (Z.mod_pos_bound (s + 7919 * Z.of_nat n) 32768). lia.
Defined.


Lemma steps_in_fuel l e fuel :
  (11 <= fuel)%nat -> steps_in l e fuel = steps_in l e 11.
Proof. intros H. unfold steps_in. rewrite (main_fuel fuel H). reflexivity. Qed.


(** X4.  The elements of [seed] in closed form.  With [rand()] in its
    range, when [auth_new] is called the ten declared elements of [seed]
    are the characters [charset[rand() % 27]], in the order of the ten
    answers of [rand()] after [srand(time(NULL))], each read within the
    literal.  This holds in either layout of the frame: it does not depend
    on where the store of line 18 lands. *)
Theorem seed_elements_drawn_from_charset l e fuel :
  (11 <= fuel)%nat -> rand_in_range e ->
  List.map seed_elements (at_call F_auth_new (steps_in l e fuel)) =
  [Some (drawn e <$> seq 0 10)].
Proof.
  intros Hf Hr. rewrite (steps_in_fuel l e fuel Hf), <- (picks_drawn e Hr).
  destruct l; sym; reflexivity.
Qed.

Lemma seed_elements_drawn_from_charset_witness :
  (11 <= 11)%nat /\ rand_in_range calm /\
  List.map seed_elements
    (at_call F_auth_new (steps_in EncodingAfterSeed calm 11)) =
  [Some (drawn calm <$> seq 0 10)].
Proof.
  split; [lia|]. split; [exact calm_rand_in_range|].
  apply (seed_elements_drawn_from_charset EncodingAfterSeed calm 11);
    [lia | exact calm_rand_in_range].
Defined.

(* ===================================================================== *)
(** ** The seed [auth_new] is given *)
(* ===================================================================== *)







(** The two layouts at work, in [strict]: the same ten characters, and
    either the seed of the claim or a seed the library refuses. *)
Lemma strict_seed_in_either_layout :
  seeds_given F_auth_new (steps strict 11) = [Some "TAIQHPXEWD"] /\
  List.map failure (at_call F_auth_new (steps strict 11)) = [None] /\
  seeds_given F_auth_new (steps_in EncodingAfterSeed strict 11) =
  [Some "TAIQHPXEWDutf-8"] /\
  List.map failure (at_call F_auth_new (steps_in EncodingAfterSeed strict 11)) =
  [Some (Protocol InvalidSeed)].
Proof. vm_compute. repeat split. Qed.



(* ===================================================================== *)
(** ** The seed and the clock *)
(* ===================================================================== *)

(** X5.  The seed follows the clock.  Two executions with the same
    generator whose clocks agree as [unsigned], the same second or seconds
    2^32 apart, give [auth_new] the same seed, whatever else differs
    between them. *)
Theorem author_seed_follows_the_clock e1 e2 fuel :
  (11 <= fuel)%nat -> rand_in_range e1 -> rand_in_range e2 ->
  (forall s k, rand_out e1 s k = rand_out e2 s k) ->
  to_uint (now e1) = to_uint (now e2) ->
  seeds_given F_auth_new (steps e1 fuel) =
  seeds_given F_auth_new (steps e2 fuel).
Proof.
  intros Hf H1 H2 Hr Ht.
  rewrite !(steps_fuel _ fuel Hf), (seed_read_by_auth_new e1 H1),
    (seed_read_by_auth_new e2 H2).
  do 3 f_equal. apply list_fmap_ext. intros i k _.
  unfold drawn. rewrite Ht, Hr. reflexivity.
Qed.

Lemma author_seed_follows_the_clock_witness :
  (11 <= 11)%nat /\ rand_in_range calm /\ rand_in_range wrapped /\
  (forall s k, rand_out calm s k = rand_out wrapped s k) /\
  to_uint (now calm) = to_uint (now wrapped) /\
  seeds_given F_auth_new (steps calm 11) =
  seeds_given F_auth_new (steps wrapped 11).
Proof.
  split; [lia|]. split; [exact calm_rand_in_range|].
  split; [exact wrapped_rand_in_range|].
  split; [reflexivity|]. split; [vm_compute; reflexivity|].
  apply (author_seed_follows_the_clock calm wrapped 11);
    [lia | exact calm_rand_in_range | exact wrapped_rand_in_range
     | reflexivity | vm_compute; reflexivity].
Defined.

(** X7.  The author seed that is printed is the seed that is used: the
    string [printf] reports on line 24 is the string [auth_new] reads on
    line 25, whatever [rand()] answered and whatever follows the array. *)
Theorem author_seed_reported_as_given e fuel :
  (11 <= fuel)%nat ->
  exists s,
    reported_then_given_to F_auth_new (steps e fuel) = [([Some s], Some s)].
Proof.
  intros Hf. rewrite (steps_fuel e fuel Hf). eexists. sym_strings. reflexivity.
Qed.

Lemma author_seed_reported_as_given_witness :
  (11 <= 11)%nat /\
  exists s,
    reported_then_given_to F_auth_new (steps calm 11) = [([Some s], Some s)].
Proof.
  split; [lia | apply (author_seed_reported_as_given calm 11); lia].
Defined.

(* ===================================================================== *)
(** ** The bounds of the arrays *)
(* ===================================================================== *)

Lemma within_iteration e k :
  rand_in_range e -> (k < 10)%nat ->
  List.filter (fun a => negb (within a)) (iteration e k) = [].
Proof.
  intros Hr Hk. unfold iteration. cbn [List.filter within acc_cap acc_index].
  destruct (rem_27_bound _ (proj1 (Hr (to_uint (now e)) k))) as [H0 H27].
  rewrite (proj2 (Z.leb_le _ _) H0).
  rewrite (proj2 (Z.ltb_lt _ _)) by (change (Z.of_nat 28) with 28; lia).
  rewrite (proj2 (Z.leb_le 0 (Z.of_nat k))) by lia.
  rewrite (proj2 (Z.ltb_lt (Z.of_nat k) _))
    by (change (Z.of_nat 10) with 10; lia).
  reflexivity.
Qed.

Lemma filter_concat_nil {A} (f : A -> bool) (ls : list (list A)) :
  Forall (fun l => List.filter f l = []) ls -> List.filter f (concat ls) = [].
Proof.
  induction 1 as [|l ls Hl _ IH]; simpl; [reflexivity|].
  rewrite List.filter_app, Hl, IH. reflexivity.
Qed.

(** X8.  With [rand()] in its range, of the array subscripts that [main]
    evaluates, the store [seed[10]] of line 18 is the only one outside the
    declared elements of its array: each read [charset[key]] and each
    store [seed[n]] of the loop is within bounds, and [main] has no other
    subscript.  What [printf] and [auth_new] read through the pointer
    [seed] is not counted here. *)
Theorem only_the_terminator_is_out_of_bounds e fuel :
  (11 <= fuel)%nat -> rand_in_range e ->
  out_of_bounds (steps e fuel) =
  [{| acc_dir := Written; acc_var := seed; acc_index := 10;
      acc_cap := Some 10%nat |}].
Proof.
  intros Hf Hr. rewrite (steps_fuel e fuel Hf). unfold out_of_bounds.
  rewrite main_accesses, List.filter_app, filter_concat_nil; [reflexivity|].
  apply Forall_fmap, Forall_forall. intros k Hk.
  apply within_iteration; [exact Hr|].
  apply elem_of_seq in Hk. lia.
Qed.

Lemma only_the_terminator_is_out_of_bounds_witness :
  (11 <= 11)%nat /\ rand_in_range calm /\
  out_of_bounds (steps calm 11) =
  [{| acc_dir := Written; acc_var := seed; acc_index := 10;
      acc_cap := Some 10%nat |}].
Proof.
  split; [lia|]. split; [exact calm_rand_in_range|].
  apply (only_the_terminator_is_out_of_bounds calm 11);
    [lia | exact calm_rand_in_range].
Defined.

(** X9.  With [rand()] in its range, when [auth_new] is called the ten
    declared elements of [seed] are all set and none of them is NUL: the
    array holds no terminator, and whoever reads [seed] as a string reads
    past its last element. *)
Theorem seed_array_holds_no_terminator e fuel :
  (11 <= fuel)%nat -> rand_in_range e ->
  exists l,
    List.map seed_elements (at_call F_auth_new (steps e fuel)) = [Some l] /\
    length l = 10%nat /\ NUL ∉ l.
Proof.
  intros Hf Hr. rewrite (steps_fuel e fuel Hf).
  exists (pick e <$> seq 0 10). split; [sym; reflexivity|].
  split; [reflexivity|].
  intros Hin. pose proof (picks_not_NUL e Hr) as Hn.
  rewrite Forall_forall in Hn. exact (Hn NUL Hin eq_refl).
Qed.

Lemma seed_array_holds_no_terminator_witness :
  (11 <= 11)%nat /\ rand_in_range calm /\
  exists l,
    List.map seed_elements (at_call F_auth_new (steps calm 11)) = [Some l] /\
    length l = 10%nat /\ NUL ∉ l.
Proof.
  split; [lia|]. split; [exact calm_rand_in_range|].
  apply (seed_array_holds_no_terminator calm 11);
    [lia | exact calm_rand_in_range].
Defined.
